(** * quill: pattern formatter and log-record dispatch

    A shallow embedding of
    - [quill/PatternFormatter.h]  (class [PatternFormatter]) and
    - [quill/detail/record/LogRecord.h]  (class template [LogRecord])
    together with the properties of the record pipeline that are checked
    against them.

    Conventions.  A [std::string], a [char const*] and an
    [fmt::memory_buffer] are all lists of characters ([text]); the text of
    a [char const*] is what precedes its terminator, so a pattern holds no
    NUL.  A [size_t] is a [nat]; the only place where unsigned wrap-around
    can happen ([len - 1] in [_parse_format_pattern]) is written out there.
    A C++ exception is a value of [exn]; code that can throw returns an
    [outcome].  Functions that are declared in the two headers and defined
    elsewhere are either parameters (type classes [FmtEngine],
    [ResolverTable], [MemberResolverTable], [Backend]) or modelled from the
    specification; the doc comment of each such definition says so. *)

From Stdlib Require Import Ascii String.
From stdpp Require Import base option list strings gmap.

Set Default Proof Using "Type".

(** ** Text *)

Abbreviation text := (list ascii).

(** String literals of the source, as character lists. *)
Definition lit (s : string) : text := list_ascii_of_string s.

(** ** Exceptions and outcomes *)

Inductive exn : Type :=
  | runtime_error (what : string)   (* std::runtime_error *)
  | format_error                    (* fmt::format_error, thrown by the fmt engine *)
  | out_of_range                    (* std::out_of_range, std::string::substr *)
  | handler_error                   (* anything a Handler::write throws *)
  | undefined_behaviour.            (* not an exception: the source has no defined meaning here *)

Inductive outcome (A : Type) : Type :=
  | Returns (a : A)
  | Throws (e : exn).
Arguments Returns {A} a.
Arguments Throws {A} e.

Definition obind {A B} (m : outcome A) (k : A -> outcome B) : outcome B :=
  match m with
  | Returns a => k a
  | Throws e => Throws e
  end.

Declare Scope outcome_scope.
Delimit Scope outcome_scope with outcome.
Notation "x <-! m ; k" := (obind m (fun x => k))
  (at level 100, m at next level, right associativity) : outcome_scope.
Local Open Scope outcome_scope.

(** The error the spec calls [MissingPlaceholder]:
    [throw std::runtime_error("%(message) is required in the format pattern")]. *)
Definition MissingPlaceholder : exn :=
  runtime_error "%(message) is required in the format pattern".

(** ** std::string operations used by [_set_pattern] *)

Fixpoint starts_with (needle hay : text) : bool :=
  match needle, hay with
  | [], _ => true
  | _ :: _, [] => false
  | a :: needle', b :: hay' => Ascii.eqb a b && starts_with needle' hay'
  end.

(** [hay.find(needle)]: the lowest index at which [needle] occurs, [None]
    for [std::string::npos]. *)
Fixpoint find (hay needle : text) : option nat :=
  if starts_with needle hay then Some 0
  else match hay with
       | [] => None
       | _ :: hay' => S <$> find hay' needle
       end.

(** [s.substr(pos, n)] and [s.substr(pos)]; both throw [std::out_of_range]
    when [pos > s.size()]. *)
Definition substr (s : text) (pos n : nat) : outcome text :=
  if decide (pos <= length s) then Returns (take n (drop pos s)) else Throws out_of_range.

Definition substr_from (s : text) (pos : nat) : outcome text :=
  if decide (pos <= length s) then Returns (drop pos s) else Throws out_of_range.

(** ** [_parse_format_pattern]  (PatternFormatter.h, lines 530-570) *)

(** [pattern[i]] for a NUL-terminated [char const*]: index [len] holds the
    terminator.  The scan never reads beyond index [len] when [len >= 1]. *)
Definition c_at (pattern : text) (i : nat) : ascii := nth i pattern "000"%char.

(** The chain [pattern[++pos] == '(' && pattern[++pos] == 'm' && ...]:
    [pos] is pre-incremented before every comparison and the chain stops at
    the first mismatch, leaving [pos] on the mismatching character. *)
Fixpoint match_chain (pattern : text) (pos : nat) (expected : text) : nat * bool :=
  match expected with
  | [] => (pos, true)
  | e :: expected' =>
      let pos := S pos in
      if Ascii.eqb (c_at pattern pos) e then match_chain pattern pos expected'
      else (pos, false)
  end.

(** The [while (pos < len - 1)] loop; [fuel] bounds the number of
    iterations, and [None] means that the bound was too small. *)
Fixpoint parse_loop (fuel : nat) (pattern : text) (pos : nat) (part_2_found : bool)
    (part_1_style_counter part_3_style_counter : nat) : option (nat * nat) :=
  match fuel with
  | O => None
  | S fuel =>
      if decide (pos < length pattern - 1) then
        if Ascii.eqb (c_at pattern pos) "%"%char then
          if negb part_2_found then
            let '(pos, matched) := match_chain pattern pos (lit "(message)") in
            if matched then
              (* do not increment the style counter *)
              parse_loop fuel pattern (S pos) true part_1_style_counter part_3_style_counter
            else
              (* still in part_1 *)
              parse_loop fuel pattern (S pos) false (S part_1_style_counter) part_3_style_counter
          else
            parse_loop fuel pattern (S pos) true part_1_style_counter (S part_3_style_counter)
        else
          parse_loop fuel pattern (S pos) part_2_found part_1_style_counter part_3_style_counter
      else Some (part_1_style_counter, part_3_style_counter)
  end.

(** [_parse_format_pattern<TConstantString>()].  The function is evaluated
    in a constant expression.  For the empty pattern [len - 1] wraps around
    to [SIZE_MAX], the loop walks past the terminator, and the evaluation is
    not a constant expression: there is no result ([None]).  For every other
    pattern [len - 1] is the mathematical difference and [length pattern]
    iterations are enough (lemma [parse_loop_fuel]). *)
Definition _parse_format_pattern (pattern : text) : option (nat * nat) :=
  match pattern with
  | [] => None
  | _ :: _ => parse_loop (length pattern) pattern 0 false 0 0
  end.

(** ** State and exceptions

    Code that mutates an object and may throw is a function from the state
    before to the state after, paired with how the call ended.  When a call
    throws, the state is the one reached at the [throw]. *)

Definition Eff (S A : Type) : Type := S -> S * outcome A.

Definition eret {S A} (a : A) : Eff S A := fun s => (s, Returns a).

Definition ebind {S A B} (m : Eff S A) (k : A -> Eff S B) : Eff S B :=
  fun s =>
    match m s with
    | (s', Returns a) => k a s'
    | (s', Throws e) => (s', Throws e)
    end.

Definition ethrow {S A} (e : exn) : Eff S A := fun s => (s, Throws e).
Definition emodify {S} (f : S -> S) : Eff S unit := fun s => (f s, Returns tt).

Declare Scope eff_scope.
Delimit Scope eff_scope with eff.
Notation "x <-~ m ; k" := (ebind m (fun x => k))
  (at level 100, m at next level, right associativity) : eff_scope.
Notation "m ;~ k" := (ebind m (fun _ => k))
  (at level 100, k at level 200, right associativity) : eff_scope.
Local Open Scope eff_scope.

(** A range-based [for] over a container: the body runs on the elements in
    order; a throwing body ends the loop. *)
Fixpoint efor {S A} (l : list A) (body : A -> Eff S unit) : Eff S unit :=
  match l with
  | [] => eret tt
  | x :: l' => body x ;~ efor l' body
  end.

(** ** Call-site metadata *)

(** Modelled from the spec: the declaration of [LogLevel] is missing.  The
    severity is a totally ordered scale; it is represented by the unsigned
    value underlying the enumeration, and [>=] on levels compares these. *)
Definition LogLevel : Type := N.

(** Modelled from the spec: the declaration of [detail::StaticLogRecordInfo]
    (named [detail::LogRecordMetadata] in LogRecord.h) is missing.  Section 3
    of the spec lists its contents: source file name, full path, function
    name, line number, severity level and message template. *)
Record StaticLogRecordInfo : Type := {
  filename : text;
  pathname : text;
  func : text;
  lineno : text;
  level : LogLevel;
  message_format : text;
}.
Abbreviation LogRecordMetadata := StaticLogRecordInfo.

(** [std::chrono::nanoseconds]. *)
Definition nanoseconds : Type := Z.

(** [argument_callback_t]:
    [std::function<char const*(std::chrono::nanoseconds, char const*, char const*,
                               detail::StaticLogRecordInfo const&)>].
    The type gives what a callback is called with.  What a callback has
    captured is fixed when it is created: the value below is a callback of
    one formatter object, see [MemberResolverTable]. *)
Definition argument_callback_t : Type :=
  nanoseconds -> text -> text -> StaticLogRecordInfo -> text.

(** ** The fmt library

    [fmt::format_to(buffer, format_string, args...)] belongs to the bundled
    fmt library, not to the formatter; the formatter is verified for every
    engine.  An engine says which characters a call appends to the buffer
    and whether the call returns or throws ([fmt::format_error]); what it has
    appended before a throw stays in the buffer. *)
Class FmtEngine : Type := {
  (** a value that can be passed as a format argument *)
  Arg : Type;
  (** a [char const*] passed as a format argument *)
  cstr : text -> Arg;
  fmt_format_to : text -> list Arg -> text * outcome unit;
}.

(** [PatternFormatter::Timezone] and [PatternFormatter::TimestampPrecision]. *)
Inductive Timezone : Type := LocalTime | GmtTime.
Inductive TimestampPrecision : Type := NoPrecision | MilliSeconds | MicroSeconds | NanoSeconds.

(** The closed table from attribute name to callback,
    [_select_argument_callback] (declared at PatternFormatter.h, line 360;
    its definition is not part of the header).  [None] stands for a name
    the table does not know.  The function is a non-static member and its
    callbacks capture [this]: an instance of the class is the table of one
    formatter object. *)
Class ResolverTable : Type := {
  _select_argument_callback : text -> option argument_callback_t;
}.

Section PatternFormatter.
Context `{FmtEngine} `{ResolverTable}.

(** [fmt::format_to] on a [fmt::memory_buffer&]. *)
Definition format_to (format_string : text) (args : list Arg) : Eff text unit :=
  fun buffer =>
    let '(out, r) := fmt_format_to format_string args in (buffer ++ out, r).

(** *** [FormatterHelper]  (lines 94-130) *)

Record FormatterHelper : Type := {
  _tuple_of_callbacks : list argument_callback_t;
  _fmt_pattern : text;
}.

(** [FormatterHelper::format]: every stored callback is applied to the
    record's data and the results are interpolated into [_fmt_pattern]. *)
Definition helper_format (h : FormatterHelper) (timestamp : nanoseconds)
    (thread_id logger_name : text) (logline_info : StaticLogRecordInfo) : Eff text unit :=
  format_to (_fmt_pattern h)
    (map (fun tuple_arg => cstr (tuple_arg timestamp thread_id logger_name logline_info))
         (_tuple_of_callbacks h)).

(** *** [PatternFormatter]

    The two helpers are [std::unique_ptr]s, [None] is [nullptr].  The
    mutable member [_formatted_log_record] is the state of [Eff text]. *)
Record PatternFormatter : Type := {
  _pattern_formatter_helper_part_1 : option FormatterHelper;
  _pattern_formatter_helper_part_3 : option FormatterHelper;
  _date_format : text;
  _timezone_type : Timezone;
  _timestamp_precision : TimestampPrecision;
}.

(** [if (helper) { helper->format(buffer, ...); }] *)
Definition format_part (helper : option FormatterHelper) (timestamp : nanoseconds)
    (thread_id logger_name : text) (logline_info : StaticLogRecordInfo) : Eff text unit :=
  match helper with
  | Some h => helper_format h timestamp thread_id logger_name logline_info
  | None => eret tt
  end.

(** [PatternFormatter::format]  (lines 402-429). *)
Definition format (self : PatternFormatter) (timestamp : nanoseconds)
    (thread_id logger_name : text) (logline_info : StaticLogRecordInfo)
    (args : list Arg) : Eff text unit :=
  (* clear out existing buffer *)
  emodify (fun _ => []) ;~
  (* Format part 1 of the pattern first *)
  format_part (_pattern_formatter_helper_part_1 self) timestamp thread_id logger_name logline_info ;~
  (* Format the user requested string *)
  format_to (message_format logline_info) args ;~
  (* Format part 3 of the pattern *)
  format_part (_pattern_formatter_helper_part_3 self) timestamp thread_id logger_name logline_info ;~
  (* Append a new line *)
  emodify (fun buffer => buffer ++ ["010"%char]).

(** *** Tokens of a pattern part *)

Inductive segment_item : Type :=
  | Literal (c : ascii)
  | Token (name : text).

(** Modelled from the spec: the errors of pattern compilation other than
    [MissingPlaceholder] are raised by functions that are missing from the
    header.  Section 7: [UnknownAttribute], "format string references a
    token not in the resolver table"; section 9: a [%(] without a closing
    [)] is "a hard compilation error". *)
Definition UnknownAttribute : exn := runtime_error "Attribute could not be found".
Definition MalformedToken : exn := runtime_error "Incorrect pattern. Missing ')'".

(** Modelled from the spec: the scan shared by [_generate_vector_of_callbacks]
    and [_generate_fmt_format_string], which are missing.  Section 6: a
    pattern is "literal text interspersed with tokens of the form [%(name)]".
    [in_name] holds the characters of the name read so far (latest first)
    while the scan is between [%(] and [)]. *)
Fixpoint tokenize (in_name : option text) (pattern : text) : outcome (list segment_item) :=
  match pattern with
  | [] =>
      match in_name with
      | None => Returns []
      | Some _ => Throws MalformedToken
      end
  | c :: pattern' =>
      match in_name with
      | Some name =>
          if Ascii.eqb c ")"%char then
            items <-! tokenize None pattern'; Returns (Token (reverse name) :: items)
          else tokenize (Some (c :: name)) pattern'
      | None =>
          if Ascii.eqb c "%"%char then
            match pattern' with
            | c' :: pattern'' =>
                if Ascii.eqb c' "("%char then tokenize (Some []) pattern''
                else items <-! tokenize None pattern'; Returns (Literal c :: items)
            | [] => Returns [Literal c]
            end
          else items <-! tokenize None pattern'; Returns (Literal c :: items)
      end
  end.

(** Modelled from the spec: [_generate_vector_of_callbacks] is missing.
    Section 4.1: "For each recognized token, bind it to its corresponding
    Attribute Resolver via a lookup table keyed by token name; an
    unrecognized token name fails with [UnknownAttribute]", the callbacks
    being "in the exact same order as the format specifiers" (line 350). *)
Fixpoint bind_callbacks (items : list segment_item) : outcome (list argument_callback_t) :=
  match items with
  | [] => Returns []
  | Literal _ :: items' => bind_callbacks items'
  | Token name :: items' =>
      match _select_argument_callback name with
      | None => Throws UnknownAttribute
      | Some callback =>
          callbacks <-! bind_callbacks items'; Returns (callback :: callbacks)
      end
  end.

Definition _generate_vector_of_callbacks (pattern : text) : outcome (list argument_callback_t) :=
  items <-! tokenize None pattern; bind_callbacks items.

(** Modelled from the spec: [_generate_fmt_format_string] is missing.
    Section 4.1: "each recognized token is replaced by a generic positional
    placeholder, preserving surrounding literal text and escaping any
    characters that are syntactically meaningful to the interpolation
    engine".  The placeholder is [{}]; the meaningful characters are the
    braces, escaped by doubling. *)
Definition template_of_item (item : segment_item) : text :=
  match item with
  | Token _ => lit "{}"
  | Literal c =>
      if Ascii.eqb c "{"%char then lit "{{"
      else if Ascii.eqb c "}"%char then lit "}}"
      else [c]
  end.

Definition _generate_fmt_format_string (pattern : text) : outcome text :=
  items <-! tokenize None pattern; Returns (concat (map template_of_item items)).

(** *** [_generate_tuple]  (lines 278-295)

    [std::make_tuple(callback(0), ..., callback(N-1))]. *)
Fixpoint _generate_tuple_impl {A} (callback : nat -> outcome A) (Is : list nat) : outcome (list A) :=
  match Is with
  | [] => Returns []
  | i :: Is' =>
      x <-! callback i; xs <-! _generate_tuple_impl callback Is'; Returns (x :: xs)
  end.

Definition _generate_tuple {A} (N : nat) (callback : nat -> outcome A) : outcome (list A) :=
  _generate_tuple_impl callback (seq 0 N).

(** *** [_make_formatter_helper<N>]  (lines 573-593)

    [args_callback_collection[i]] is [std::vector::operator[]]: an index
    that is not below the size has undefined behaviour. *)
Definition _make_formatter_helper (N : nat) (format_pattern_part : text)
    : outcome (option FormatterHelper) :=
  args_callback_collection <-! _generate_vector_of_callbacks format_pattern_part;
  if negb (bool_decide (args_callback_collection = [])) then
    callbacks_tuple <-! _generate_tuple N (fun i =>
      match args_callback_collection !! i with
      | Some callback => Returns callback
      | None => Throws undefined_behaviour
      end);
    fmt_format <-! _generate_fmt_format_string format_pattern_part;
    Returns (Some {| _tuple_of_callbacks := callbacks_tuple; _fmt_pattern := fmt_format |})
  else Returns None.

(** *** [_set_pattern]  (lines 502-527) *)

(** The [%(message)] token and [quill::detail::strlen] of it. *)
Definition message_token : text := lit "%(message)".

(** The first half of [_set_pattern]: look for the token, throw when it is
    absent, cut the pattern into part 1 and part 3. *)
Definition split_pattern (pattern : text) : outcome (text * text) :=
  (* parse and check the given pattern *)
  match find pattern message_token with
  | None => Throws MissingPlaceholder
  | Some message_found =>
      (* break down the pattern to three parts, we can ignore part_2 *)
      pattern_part_1 <-! substr pattern 0 message_found;
      pattern_part_3 <-! substr_from pattern (message_found + length message_token);
      Returns (pattern_part_1, pattern_part_3)
  end.

(** [_set_pattern] assigns the two helpers of [self].  [arr] is a
    [constexpr] variable: when [_parse_format_pattern] has no value the
    program has no meaning; lemma [parse_defined_after_split] shows that
    this cannot happen once the token has been found. *)
Definition _set_pattern (pattern : text) (self : PatternFormatter) : outcome PatternFormatter :=
  parts <-! split_pattern pattern;
  let '(pattern_part_1, pattern_part_3) := parts in
  (* pos 0 = number of part_1 args, pos 1 = number of part_3 args *)
  arr <-! match _parse_format_pattern pattern with
          | Some arr => Returns arr
          | None => Throws undefined_behaviour
          end;
  let '(part_1_args_count, part_3_args_count) := arr in
  helper_part_1 <-! _make_formatter_helper part_1_args_count pattern_part_1;
  helper_part_3 <-! _make_formatter_helper part_3_args_count pattern_part_3;
  Returns {| _pattern_formatter_helper_part_1 := helper_part_1;
             _pattern_formatter_helper_part_3 := helper_part_3;
             _date_format := _date_format self;
             _timezone_type := _timezone_type self;
             _timestamp_precision := _timestamp_precision self |}.

(** The default member initialisers (lines 377-395). *)
Definition default_members : PatternFormatter :=
  {| _pattern_formatter_helper_part_1 := None;
     _pattern_formatter_helper_part_3 := None;
     _date_format := lit "%H:%M:%S";
     _timezone_type := LocalTime;
     _timestamp_precision := NanoSeconds |}.

(** The constructor with a custom format (lines 174-182). *)
Definition new_PatternFormatter (format_pattern date_format : text)
    (timestamp_precision : TimestampPrecision) (timezone : Timezone) : outcome PatternFormatter :=
  self <-! _set_pattern format_pattern default_members;
  Returns {| _pattern_formatter_helper_part_1 := _pattern_formatter_helper_part_1 self;
             _pattern_formatter_helper_part_3 := _pattern_formatter_helper_part_3 self;
             _date_format := date_format;
             _timezone_type := timezone;
             _timestamp_precision := timestamp_precision |}.

(** The default constructor (lines 159-165). *)
Definition default_PatternFormatter : outcome PatternFormatter :=
  _set_pattern
    (lit "%(ascii_time) [%(thread)] %(filename):%(lineno) LOG_%(level_name) %(logger_name) - %(message)")
    default_members.

End PatternFormatter.

(** ** The callbacks and [this]

    "During construction the PatternFormatter will create some lambdas that
    store a reference to this" (lines 185-190), which is why a formatter can
    be neither copied nor moved.  Through [this] a callback reaches the
    members [_date_format], [_timezone_type] and [_timestamp_precision] at
    the time it is called; they have their final values when the constructor
    returns, and no member function changes them afterwards.  The table of a
    formatter object is therefore fixed by these three members.

    Modelled from the spec: the definitions of [_select_argument_callback]
    and of [_convert_epoch_to_local_date] are missing.  Section 4.2: a
    callback is "a pure function of (real timestamp, thread id, logger name,
    call-site metadata)", the time being formatted with "configurable
    precision" and "configurable timezone".  The member [_formatted_date] is
    the buffer the date is formatted into, kept "to avoid re-allocating"
    (line 380); the header declares no member that keeps a formatted second
    from one call to the next. *)
Class MemberResolverTable : Type := {
  _select_argument_callback_with :
    text -> Timezone -> TimestampPrecision -> text -> option argument_callback_t;
}.

(** The table of the object [this]. *)
Definition table_of `{MemberResolverTable} (this : PatternFormatter) : ResolverTable :=
  {| _select_argument_callback :=
       _select_argument_callback_with (_date_format this) (_timezone_type this)
                                      (_timestamp_precision this) |}.

(** [_set_pattern] on an object whose three members have the values that
    the callbacks will find. *)
Definition _set_pattern_this `{MemberResolverTable} (pattern : text) (this : PatternFormatter)
    : outcome PatternFormatter :=
  @_set_pattern (table_of this) pattern this.

Definition with_date_members (this : PatternFormatter) (date_format : text)
    (timestamp_precision : TimestampPrecision) (timezone : Timezone) : PatternFormatter :=
  {| _pattern_formatter_helper_part_1 := _pattern_formatter_helper_part_1 this;
     _pattern_formatter_helper_part_3 := _pattern_formatter_helper_part_3 this;
     _date_format := date_format;
     _timezone_type := timezone;
     _timestamp_precision := timestamp_precision |}.

(** The two constructors (lines 159-182).  The constructor with a custom
    format assigns the three members after [_set_pattern] has returned; the
    callbacks are called later, and find the constructor's arguments. *)
Definition PatternFormatter_default `{MemberResolverTable} : outcome PatternFormatter :=
  @default_PatternFormatter (table_of default_members).

Definition PatternFormatter_custom `{MemberResolverTable} (format_pattern date_format : text)
    (timestamp_precision : TimestampPrecision) (timezone : Timezone) : outcome PatternFormatter :=
  @new_PatternFormatter
    (table_of (with_date_members default_members date_format timestamp_precision timezone))
    format_pattern date_format timestamp_precision timezone.

(** ** [LogRecord]  (LogRecord.h) *)

(** Objects are referred to by address. *)
Abbreviation ptr := positive.

(** Modelled from the spec: the class [BacktraceRecordStorage] is missing.
    Section 6: [process(logger_name, visitor)], "for every buffered record
    under that logger name, invokes the visitor with the record's stored
    thread id and a render-capable handle to that record"; section 5: oldest
    first. *)
Abbreviation BacktraceRecordStorage := (gmap text (list (text * ptr))).

(** What is only known by declaration on the backend side: the data members
    of the base class [RecordBase] and the type [GetHandlersCallbackT]. *)
Class Backend : Type := {
  RecordBase : Type;
  GetHandlersCallbackT : Type;
}.

Section LogRecord.
Context `{FmtEngine} `{Backend}.

(** Modelled from the spec: the class [Handler] is missing.  Section 6: a
    handler exposes "a [format()]-returning accessor yielding its own
    Pattern Renderer instance, and a [write(buffer, timestamp)] operation".
    [write] performs I/O outside the program; what the model keeps of it is
    whether the call returns or throws. *)
Record Handler : Type := {
  formatter : PatternFormatter;
  write : text -> nanoseconds -> outcome unit;
}.

(** Modelled from the spec: the class [LoggerDetails] is missing.  Section 6:
    it exposes "stable logger name (string), ordered collection of handler
    references, backtrace-flush severity level". *)
Record LoggerDetails : Type := {
  name : text;
  handlers : list ptr;
  backtrace_flush_level : LogLevel;
}.

(** An object of class [LogRecord<TLogRecordMetadata, FmtArgs...>]: the base
    sub-object, the metadata fixed by the template argument, and the two
    data members (lines 119-120). *)
Record LogRecord : Type := {
  record_base : RecordBase;
  LogRecordMetadataT : LogRecordMetadata;
  _logger_details : ptr;
  _fmt_args : list Arg;
}.

(** The objects the dispatcher reads but never changes. *)
Record Registry : Type := {
  handler_objects : gmap ptr Handler;
  logger_objects : gmap ptr LoggerDetails;
}.

(** The calls that leave the dispatcher, in the order they are made. *)
Inductive event : Type :=
  | EvWrite (handler : ptr) (formatted_log_record_buffer : text) (log_record_timestamp : nanoseconds)
  | EvBacktraceProcess (logger_name : text)
  | EvBacktraceRecord (stored_thread_id : text) (stored_backtrace_record : ptr).

(** The state the dispatcher changes: the buffer [_formatted_log_record] of
    every handler's formatter (empty until first used), and the calls made
    so far. *)
Record World : Type := {
  formatter_buffers : gmap ptr text;
  calls : list event;
}.

Definition deref {S A} (objects : gmap ptr A) (p : ptr) : Eff S A :=
  match objects !! p with
  | Some a => eret a
  | None => ethrow undefined_behaviour
  end.

(** Run a formatter member function on the buffer of [handler]'s formatter. *)
Definition with_formatter_buffer {A} (handler : ptr) (m : Eff text A) : Eff World A :=
  fun w =>
    let '(buffer, r) := m (default [] (formatter_buffers w !! handler)) in
    ({| formatter_buffers := <[handler := buffer]> (formatter_buffers w); calls := calls w |}, r).

(** [handler->formatter().formatted_log_record()] *)
Definition formatted_log_record (handler : ptr) : Eff World text :=
  fun w => (w, Returns (default [] (formatter_buffers w !! handler))).

Definition emit (e : event) : Eff World unit :=
  emodify (fun w => {| formatter_buffers := formatter_buffers w; calls := calls w ++ [e] |}).

(** [handler->write(buffer, timestamp)]: the call is made, then it returns
    or throws. *)
Definition call_write (handler : ptr) (h : Handler) (buffer : text)
    (log_record_timestamp : nanoseconds) : Eff World unit :=
  emit (EvWrite handler buffer log_record_timestamp) ;~
  fun w => (w, write h buffer log_record_timestamp).

(** [backtrace_record_storage.process(logger_name, visitor)] *)
Definition process (storage : BacktraceRecordStorage) (logger_name : text)
    (visitor : text -> ptr -> Eff World unit) : Eff World unit :=
  emit (EvBacktraceProcess logger_name) ;~
  efor (default [] (storage !! logger_name))
       (fun stored => visitor stored.1 stored.2).

(** [RecordBase::backend_process_backtrace_record] is a virtual function of
    the stored record; [LogRecord] does not define it.  The model stops at
    the call, which is recorded with the thread id it is given: [calls]
    holds the calls that [backend_process] itself makes.  What the stored
    record does when it is called (it is rendered and written through the
    handlers of the logger, lines 105-107, and so changes their buffers and
    can throw) is outside the header.  A statement about a dispatch that
    reaches the storage speaks of the calls made by [backend_process];
    statements about the buffers after a dispatch are made for dispatches
    that do not reach the storage. *)
Definition backend_process_backtrace_record (stored_backtrace_record : ptr)
    (stored_thread_id : text) (obtain_active_handlers : GetHandlersCallbackT)
    (timestamp_callback : LogRecord -> nanoseconds) : Eff World unit :=
  emit (EvBacktraceRecord stored_thread_id stored_backtrace_record).

(** The body of the loop over the handlers (lines 80-96): render with the
    handler's formatter, fetch the formatter's buffer, write it. *)
Definition forward_to_handler (registry : Registry) (self : LogRecord)
    (logger_details : LoggerDetails) (thread_id : text)
    (log_record_timestamp : nanoseconds) (handler : ptr) : Eff World unit :=
  h <-~ deref (handler_objects registry) handler;
  with_formatter_buffer handler
    (format (formatter h) log_record_timestamp thread_id (name logger_details)
            (LogRecordMetadataT self) (_fmt_args self)) ;~
  (* After calling format on the formatter we have to request the formatter record *)
  formatted_log_record_buffer <-~ formatted_log_record handler;
  (* log to the handler, also pass the log_record_timestamp *)
  call_write handler h formatted_log_record_buffer log_record_timestamp.

(** [LogRecord::backend_process]  (lines 67-116).  [timestamp_callback] is
    given [this]; what it reads through the pointer is the record. *)
Definition backend_process (registry : Registry) (self : LogRecord)
    (backtrace_record_storage : BacktraceRecordStorage) (thread_id : text)
    (obtain_active_handlers : GetHandlersCallbackT)
    (timestamp_callback : LogRecord -> nanoseconds) : Eff World unit :=
  (* Get the log record timestamp *)
  let log_record_timestamp := timestamp_callback self in
  (* Get the metadata of this record *)
  let log_record_metadata := LogRecordMetadataT self in
  logger_details <-~ deref (logger_objects registry) (_logger_details self);
  (* Forward the record to all of the logger handlers *)
  efor (handlers logger_details)
       (forward_to_handler registry self logger_details thread_id log_record_timestamp) ;~
  (* Check if we should also flush the backtrace messages *)
  if bool_decide (backtrace_flush_level logger_details <= level log_record_metadata)%N then
    process backtrace_record_storage (name logger_details)
      (fun stored_thread_id stored_backtrace_record =>
         backend_process_backtrace_record stored_backtrace_record stored_thread_id
           obtain_active_handlers timestamp_callback)
  else eret tt.

(** *** Records on the heap: [clone] and destruction *)

(** The implicitly defined copy constructor: base sub-object and members
    are copied one by one; the [std::tuple] of promoted values is copied by
    value, the [LoggerDetails const*] is copied as a pointer. *)
Definition copy_LogRecord (other : LogRecord) : LogRecord :=
  {| record_base := record_base other;
     LogRecordMetadataT := LogRecordMetadataT other;
     _logger_details := _logger_details other;
     _fmt_args := _fmt_args other |}.

(** [LogRecord::clone]  (lines 54-57): [std::make_unique<LogRecord>] of [*this]
    allocates an object at an unused address and copy-constructs it.  The
    model is that of a call in which the allocation and the copies of the
    promoted values succeed: [std::bad_alloc], or an exception of a copy
    constructor, is not modelled, and nothing is stated about such a
    failure. *)
Definition clone (heap : gmap ptr LogRecord) (self : ptr) : outcome (ptr * gmap ptr LogRecord) :=
  match heap !! self with
  | Some this => let p := fresh (dom heap) in Returns (p, <[p := copy_LogRecord this]> heap)
  | None => Throws undefined_behaviour
  end.

(** The destructor, run when the owner releases the record. *)
Definition destroy (heap : gmap ptr LogRecord) (p : ptr) : gmap ptr LogRecord := delete p heap.

(** [record->backend_process(...)] through a [RecordBase const*]. *)
Definition dispatch (heap : gmap ptr LogRecord) (record : ptr) (registry : Registry)
    (backtrace_record_storage : BacktraceRecordStorage) (thread_id : text)
    (obtain_active_handlers : GetHandlersCallbackT)
    (timestamp_callback : LogRecord -> nanoseconds) : Eff World unit :=
  this <-~ deref heap record;
  backend_process registry this backtrace_record_storage thread_id
    obtain_active_handlers timestamp_callback.

End LogRecord.

(** ** A concrete engine and a concrete table

    The definitions above are stated for every engine and every table.  The
    instances below serve to state what the rendered text is, and to run the
    definitions on concrete inputs. *)

(** Modelled from the spec: the fmt library is not part of the sources.
    Section 4.1 speaks of "a generic positional placeholder" and of
    "characters that are syntactically meaningful to the interpolation
    engine"; section 8 renders the template [value={}] with argument [42] as
    [value=42].  The engine below knows the replacement field [{}], filled by
    the arguments in order, and the escapes [{{] and [}}]; any other brace,
    and a field without an argument, throws [fmt::format_error].  An argument
    is given by the text a [{}] field prints for it. *)
Fixpoint brace_format (format_string : text) (args : list text) : text * outcome unit :=
  match format_string with
  | [] => ([], Returns tt)
  | c :: rest =>
      if Ascii.eqb c "{"%char then
        match rest with
        | c' :: rest' =>
            if Ascii.eqb c' "{"%char then
              let '(out, r) := brace_format rest' args in ("{"%char :: out, r)
            else if Ascii.eqb c' "}"%char then
              match args with
              | arg :: args' => let '(out, r) := brace_format rest' args' in (arg ++ out, r)
              | [] => ([], Throws format_error)
              end
            else ([], Throws format_error)
        | [] => ([], Throws format_error)
        end
      else if Ascii.eqb c "}"%char then
        match rest with
        | c' :: rest' =>
            if Ascii.eqb c' "}"%char then
              let '(out, r) := brace_format rest' args in ("}"%char :: out, r)
            else ([], Throws format_error)
        | [] => ([], Throws format_error)
        end
      else let '(out, r) := brace_format rest args in (c :: out, r)
  end.

Global Instance brace_engine : FmtEngine :=
  {| Arg := text; cstr := fun s => s; fmt_format_to := brace_format |}.

(** Modelled from the spec: a table with the attribute names of lines
    311-319 whose value is a field of the data passed to the callback
    (section 4.2).  [ascii_time] and [level_name] need the date conversion
    and the level names, which are missing; [level_name] is given three
    names of section 8 on the unsigned scale. *)
Definition level_name_of (l : LogLevel) : text :=
  if N.eqb l 3 then lit "DEBUG"
  else if N.eqb l 4 then lit "INFO"
  else if N.eqb l 6 then lit "ERROR"
  else lit "LEVEL".

Definition field_table : list (text * argument_callback_t) :=
  [ (lit "thread", fun _ thread_id _ _ => thread_id);
    (lit "logger_name", fun _ _ logger_name _ => logger_name);
    (lit "filename", fun _ _ _ info => filename info);
    (lit "pathname", fun _ _ _ info => pathname info);
    (lit "function_name", fun _ _ _ info => func info);
    (lit "lineno", fun _ _ _ info => lineno info);
    (lit "level_name", fun _ _ _ info => level_name_of (level info)) ].

Definition field_select (pattern_attr : text) : option argument_callback_t :=
  snd <$> List.find (fun entry => bool_decide (entry.1 = pattern_attr)) field_table.

Global Instance field_resolvers : ResolverTable :=
  {| _select_argument_callback := field_select |}.

Global Instance unit_backend : Backend := {| RecordBase := nanoseconds; GetHandlersCallbackT := unit |}.

(** Modelled from the spec: the time callback, whose code is missing.  The
    date format is "same as strftime() format" (line 171); section 4.3: the
    date and time of the second, then "sub-second digits (at the configured
    precision)".  The table below is that of a process whose local time is
    UTC, and knows the directives [%H], [%M] and [%S]; any other character
    of the date format stands for itself. *)
Definition decimal_digit (n : Z) : ascii := ascii_of_nat (48 + Z.to_nat (n mod 10)).

Fixpoint decimal (width : nat) (n : Z) : text :=
  match width with
  | O => []
  | S width' => decimal width' (n / 10) ++ [decimal_digit n]
  end.

Fixpoint strftime_utc (date_format : text) (seconds : Z) : text :=
  match date_format with
  | [] => []
  | c :: rest =>
      if Ascii.eqb c "%"%char then
        match rest with
        | d :: rest' =>
            (if Ascii.eqb d "H"%char then decimal 2 ((seconds / 3600) mod 24)
             else if Ascii.eqb d "M"%char then decimal 2 ((seconds / 60) mod 60)
             else if Ascii.eqb d "S"%char then decimal 2 (seconds mod 60)
             else [c; d])
            ++ strftime_utc rest' seconds
        | [] => [c]
        end
      else c :: strftime_utc rest seconds
  end.

Definition sub_second_digits (timestamp_precision : TimestampPrecision)
    (timestamp : nanoseconds) : text :=
  match timestamp_precision with
  | NoPrecision => []
  | MilliSeconds => decimal 3 ((timestamp mod 1000000000) / 1000000)
  | MicroSeconds => decimal 6 ((timestamp mod 1000000000) / 1000)
  | NanoSeconds => decimal 9 (timestamp mod 1000000000)
  end.

Definition ascii_time (date_format : text) (timezone : Timezone)
    (timestamp_precision : TimestampPrecision) : argument_callback_t :=
  fun timestamp _ _ _ =>
    strftime_utc date_format (timestamp / 1000000000)
    ++ sub_second_digits timestamp_precision timestamp.

Global Instance clock_resolvers : MemberResolverTable :=
  {| _select_argument_callback_with := fun date_format timezone timestamp_precision pattern_attr =>
       if bool_decide (pattern_attr = lit "ascii_time")
       then Some (ascii_time date_format timezone timestamp_precision)
       else field_select pattern_attr |}.


(** ** Vocabulary of the properties *)

(** The text of a token and of a sequence of items: [%(name)] for a token,
    the character itself for a literal. *)
Definition token_text (name : text) : text := lit "%(" ++ name ++ lit ")".

Definition item_text (item : segment_item) : text :=
  match item with
  | Literal c => [c]
  | Token name => token_text name
  end.

Definition items_text (items : list segment_item) : text := concat (map item_text items).

Fixpoint count_tokens (items : list segment_item) : nat :=
  match items with
  | [] => 0
  | Token _ :: items' => S (count_tokens items')
  | Literal _ :: items' => count_tokens items'
  end.

(** An item whose text holds a ['%'] only as the first character of a token
    and whose token name ends at the first [')']. *)
Definition plain_item (item : segment_item) : Prop :=
  match item with
  | Literal c => c <> "%"%char
  | Token name => ("%"%char ∉ name) /\ (")"%char ∉ name)
  end.

Global Instance plain_item_dec item : Decision (plain_item item).
Proof. destruct item; simpl; apply _. Defined.

Global Instance segment_item_eq_dec : EqDecision segment_item.
Proof. solve_decision. Defined.

(** The loop of [_parse_format_pattern], started at [pos], ends with [r]. *)
Definition parse_from (pattern : text) (pos : nat) (part_2_found : bool)
    (c1 c3 : nat) (r : nat * nat) : Prop :=
  exists fuel, parse_loop fuel pattern pos part_2_found c1 c3 = Some r.

(** The resolver counts of a pattern are the numbers of recognized tokens
    before and after the cut: whenever the pattern is cut into two parts and
    the callbacks of both parts are generated, the two counters of
    [_parse_format_pattern] are the numbers of callbacks. *)
Definition counts_recognized_tokens `{ResolverTable} (pattern : text) : Prop :=
  forall part_1 part_3 n1 n3 callbacks_1 callbacks_3,
    split_pattern pattern = Returns (part_1, part_3) ->
    _parse_format_pattern pattern = Some (n1, n3) ->
    _generate_vector_of_callbacks part_1 = Returns callbacks_1 ->
    _generate_vector_of_callbacks part_3 = Returns callbacks_3 ->
    n1 = length callbacks_1 /\ n3 = length callbacks_3.

Section DispatchVocabulary.
Context `{FmtEngine} `{Backend}.

(** Rendering the record with the formatter of handler object [h]: the
    buffer it leaves and how the call ends. *)
Definition render_for (self : LogRecord) (logger_details : LoggerDetails)
    (thread_id : text) (log_record_timestamp : nanoseconds) (h : Handler) : text * outcome unit :=
  format (formatter h) log_record_timestamp thread_id (name logger_details)
         (LogRecordMetadataT self) (_fmt_args self) [].

(** The record is delivered to [handler]: the handler exists, rendering for
    it returns, and its [write] returns. *)
Definition delivers (registry : Registry) (self : LogRecord) (logger_details : LoggerDetails)
    (thread_id : text) (log_record_timestamp : nanoseconds) (handler : ptr) : Prop :=
  exists h, handler_objects registry !! handler = Some h /\
    (render_for self logger_details thread_id log_record_timestamp h).2 = Returns tt /\
    write h (render_for self logger_details thread_id log_record_timestamp h).1
            log_record_timestamp = Returns tt.

Definition rendered_text (registry : Registry) (self : LogRecord) (logger_details : LoggerDetails)
    (thread_id : text) (log_record_timestamp : nanoseconds) (handler : ptr) : text :=
  match handler_objects registry !! handler with
  | Some h => (render_for self logger_details thread_id log_record_timestamp h).1
  | None => []
  end.

(** The [write] call that delivers the record to [handler]. *)
Definition write_event (registry : Registry) (self : LogRecord) (logger_details : LoggerDetails)
    (thread_id : text) (log_record_timestamp : nanoseconds) (handler : ptr) : event :=
  EvWrite handler (rendered_text registry self logger_details thread_id log_record_timestamp handler)
          log_record_timestamp.

(** The world after the record has been delivered to the handlers of [l],
    one after the other. *)
Definition delivered (registry : Registry) (self : LogRecord) (logger_details : LoggerDetails)
    (thread_id : text) (log_record_timestamp : nanoseconds) (w : World) (l : list ptr) : World :=
  foldl (fun w handler =>
           {| formatter_buffers :=
                <[handler := rendered_text registry self logger_details thread_id
                               log_record_timestamp handler]> (formatter_buffers w);
              calls := calls w ++ [write_event registry self logger_details thread_id
                                     log_record_timestamp handler] |})
        w l.

(** The handlers whose [write] has been called, in call order. *)
Definition writes_of (evs : list event) : list ptr :=
  omap (fun e => match e with EvWrite handler _ _ => Some handler | _ => None end) evs.

(** The calls made to the backtrace storage and to its records. *)
Definition backtrace_events (storage : BacktraceRecordStorage) (logger_name : text) : list event :=
  EvBacktraceProcess logger_name ::
  map (fun stored => EvBacktraceRecord stored.1 stored.2) (default [] (storage !! logger_name)).

(** A failure while rendering for one handler leaves the delivery to the
    other handlers alone: every attached handler for which rendering returns
    has its [write] called. *)
Definition delivers_independently (registry : Registry) (self : LogRecord)
    (storage : BacktraceRecordStorage) (thread_id : text)
    (obtain_active_handlers : GetHandlersCallbackT)
    (timestamp_callback : LogRecord -> nanoseconds) (w : World) : Prop :=
  forall logger_details handler h,
    logger_objects registry !! _logger_details self = Some logger_details ->
    handler ∈ handlers logger_details ->
    handler_objects registry !! handler = Some h ->
    (render_for self logger_details thread_id (timestamp_callback self) h).2 = Returns tt ->
    handler ∈ writes_of (calls (backend_process registry self storage thread_id
                                  obtain_active_handlers timestamp_callback w).1).

(** Replay is triggered exactly by the level: the backtrace storage is
    called during the dispatch if and only if the level of the record is at
    least the backtrace-flush level of its logger. *)
Definition replays_iff_flush_level (registry : Registry) (self : LogRecord)
    (storage : BacktraceRecordStorage) (thread_id : text)
    (obtain_active_handlers : GetHandlersCallbackT)
    (timestamp_callback : LogRecord -> nanoseconds) (w : World) : Prop :=
  forall logger_details,
    logger_objects registry !! _logger_details self = Some logger_details ->
    (EvBacktraceProcess (name logger_details)
       ∈ drop (length (calls w))
              (calls (backend_process registry self storage thread_id
                        obtain_active_handlers timestamp_callback w).1)
     <-> (backtrace_flush_level logger_details <= level (LogRecordMetadataT self))%N).


End DispatchVocabulary.

Section SegmentVocabulary.
Context `{ResolverTable}.

(** What an item stands for in a rendered line: a literal character stands
    for itself, a token for the value its callback returns. *)
Definition item_output (timestamp : nanoseconds) (thread_id logger_name : text)
    (logline_info : StaticLogRecordInfo) (item : segment_item) : text :=
  match item with
  | Literal c => [c]
  | Token name =>
      match _select_argument_callback name with
      | Some callback => callback timestamp thread_id logger_name logline_info
      | None => []
      end
  end.

(** The literal text of a part, in its order, around the values. *)
Definition segment_output (timestamp : nanoseconds) (thread_id logger_name : text)
    (logline_info : StaticLogRecordInfo) (items : list segment_item) : text :=
  concat (map (item_output timestamp thread_id logger_name logline_info) items).

(** The same, for a part that is skipped when it holds no token. *)
Definition part_output (timestamp : nanoseconds) (thread_id logger_name : text)
    (logline_info : StaticLogRecordInfo) (items : list segment_item) : text :=
  if decide (count_tokens items = 0) then []
  else segment_output timestamp thread_id logger_name logline_info items.

(** Every line rendered with an accepted pattern holds the literal text of
    both parts; [skipping] says whether a part without tokens is left out. *)
Definition renders_literal_text (skipping : bool) (pattern : text) : Prop :=
  forall self fm part_1 part_3 items1 items3 timestamp thread_id logger_name logline_info
         args buffer out,
    _set_pattern pattern self = Returns fm ->
    split_pattern pattern = Returns (part_1, part_3) ->
    tokenize None part_1 = Returns items1 ->
    tokenize None part_3 = Returns items3 ->
    @format brace_engine fm timestamp thread_id logger_name logline_info args buffer
      = (out, Returns tt) ->
    exists message,
      brace_format (message_format logline_info) args = (message, Returns tt) /\
      out = (if skipping then part_output else segment_output)
              timestamp thread_id logger_name logline_info items1
            ++ message
            ++ (if skipping then part_output else segment_output)
                 timestamp thread_id logger_name logline_info items3
            ++ ["010"%char].

End SegmentVocabulary.

(** ** Concrete objects *)

(** The formatter built from a pattern with the table of fields, if the
    pattern is accepted. *)
Definition formatter_of (pattern : string) : PatternFormatter :=
  match @_set_pattern field_resolvers (lit pattern) default_members with
  | Returns fm => fm
  | Throws _ => default_members
  end.

(** The formatter that [_set_pattern] builds on the object [this] with the
    table of the clock, if the pattern is accepted. *)
Definition clock_formatter (pattern : string) (this : PatternFormatter) : PatternFormatter :=
  match @_set_pattern_this clock_resolvers (lit pattern) this with
  | Returns fm => fm
  | Throws _ => this
  end.

Definition info_value : StaticLogRecordInfo :=
  {| filename := lit "main.cpp"; pathname := lit "/src/main.cpp"; func := lit "main";
     lineno := lit "12"; level := 4%N; message_format := lit "value={}" |}.

Definition info_error : StaticLogRecordInfo :=
  {| filename := lit "main.cpp"; pathname := lit "/src/main.cpp"; func := lit "main";
     lineno := lit "21"; level := 6%N; message_format := lit "failed: {}" |}.

Definition console_handler : Handler :=
  {| formatter := formatter_of "%(level_name) %(logger_name) - %(message)";
     write := fun _ _ => Returns tt |}.

Definition file_handler : Handler :=
  {| formatter := formatter_of "[%(thread)] %(message) (%(filename):%(lineno))";
     write := fun _ _ => Returns tt |}.

(** A handler whose pattern is accepted although the counter of part 3
    (0) is smaller than the number of its tokens (1): rendering throws. *)
Definition skewed_handler : Handler :=
  {| formatter := formatter_of "%%(message) %(thread)";
     write := fun _ _ => Returns tt |}.

Definition app_logger (attached : list ptr) : LoggerDetails :=
  {| name := lit "app"; handlers := attached; backtrace_flush_level := 6%N |}.

Definition app_registry (attached : list ptr) : Registry :=
  {| handler_objects := {[ 1%positive := console_handler; 2%positive := file_handler;
                           3%positive := skewed_handler ]};
     logger_objects := {[ 1%positive := app_logger attached ]} |}.

Definition record_value : @LogRecord brace_engine unit_backend :=
  {| record_base := (1000%Z : @RecordBase unit_backend); LogRecordMetadataT := info_value;
     _logger_details := 1%positive; _fmt_args := ([lit "42"] : list (@Arg brace_engine)) |}.

Definition record_error : @LogRecord brace_engine unit_backend :=
  {| record_base := (2000%Z : @RecordBase unit_backend); LogRecordMetadataT := info_error;
     _logger_details := 1%positive; _fmt_args := ([lit "disk"] : list (@Arg brace_engine)) |}.

Definition app_backtrace : BacktraceRecordStorage :=
  {[ lit "app" := [(lit "t7", 11%positive); (lit "t8", 12%positive)] ]}.

Definition fresh_world : World := {| formatter_buffers := ∅; calls := [] |}.

(** ** Vocabulary of the further properties *)

(** The number of ['%'] characters of a text. *)
Fixpoint count_percent (s : text) : nat :=
  match s with
  | [] => 0
  | c :: s' => (if Ascii.eqb c "%"%char then 1 else 0) + count_percent s'
  end.

(** The characters the loop of [_parse_format_pattern] can stand on: all
    but the last one ([pos < len - 1]). *)
Definition scanned (pattern : text) : text := take (length pattern - 1) pattern.

(** A handler whose [write] throws, and a registry that holds it beside
    the console handler. *)
Definition full_disk_handler : Handler :=
  {| formatter := formatter_of "[%(thread)] %(message)";
     write := fun _ _ => Throws handler_error |}.

Definition disk_registry (attached : list ptr) : Registry :=
  {| handler_objects := {[ 1%positive := console_handler; 2%positive := file_handler;
                           4%positive := full_disk_handler ]};
     logger_objects := {[ 1%positive := app_logger attached ]} |}.

(** *** [_parse_format_pattern] with every read checked

    The same function as above, written out with the two things the first
    rendering leaves implicit: [len - 1] is computed in [size_t], so it is
    [SIZE_MAX] for the empty pattern; and [pattern[i]] is a read of a
    NUL-terminated array of [len + 1] characters, so an index above [len]
    has no defined behaviour, which ends the constant evaluation. *)

Definition SIZE_MAX : N := (2 ^ 64 - 1)%N.

(** [len - 1] on [size_t]. *)
Definition size_t_pred (len : nat) : N :=
  if decide (len = 0) then SIZE_MAX else N.of_nat (len - 1).

(** [pattern[i]]. *)
Definition c_read (pattern : text) (i : nat) : outcome ascii :=
  if decide (i <= length pattern) then Returns (c_at pattern i)
  else Throws undefined_behaviour.

Fixpoint match_chain_checked (pattern : text) (pos : nat) (expected : text)
    : outcome (nat * bool) :=
  match expected with
  | [] => Returns (pos, true)
  | e :: expected' =>
      let pos := S pos in
      c <-! c_read pattern pos;
      if Ascii.eqb c e then match_chain_checked pattern pos expected'
      else Returns (pos, false)
  end.

(** [None] means that [fuel] iterations were not enough. *)
Fixpoint parse_loop_checked (fuel : nat) (pattern : text) (pos : nat) (part_2_found : bool)
    (part_1_style_counter part_3_style_counter : nat) : option (outcome (nat * nat)) :=
  match fuel with
  | O => None
  | S fuel =>
      if decide (N.of_nat pos < size_t_pred (length pattern))%N then
        match c_read pattern pos with
        | Throws e => Some (Throws e)
        | Returns c =>
            if Ascii.eqb c "%"%char then
              if negb part_2_found then
                match match_chain_checked pattern pos (lit "(message)") with
                | Throws e => Some (Throws e)
                | Returns (pos, matched) =>
                    if matched then
                      parse_loop_checked fuel pattern (S pos) true
                        part_1_style_counter part_3_style_counter
                    else
                      parse_loop_checked fuel pattern (S pos) false
                        (S part_1_style_counter) part_3_style_counter
                end
              else
                parse_loop_checked fuel pattern (S pos) true
                  part_1_style_counter (S part_3_style_counter)
            else
              parse_loop_checked fuel pattern (S pos) part_2_found
                part_1_style_counter part_3_style_counter
        end
      else Some (Returns (part_1_style_counter, part_3_style_counter))
  end.

Definition _parse_format_pattern_checked (pattern : text) : option (outcome (nat * nat)) :=
  parse_loop_checked (length pattern + 2) pattern 0 false 0 0.

(** * Properties *)

(** ** [find] *)

Lemma starts_with_prefix (needle hay : text) :
  starts_with needle hay = true <-> needle `prefix_of` hay.
Proof.
  revert hay; induction needle as [|a needle IH]; intros [|b hay]; simpl.
  - split; [intros _; apply prefix_nil | done].
  - split; [intros _; apply prefix_nil | done].
  - split; [done | intros Hp; by apply prefix_nil_not in Hp].
  - rewrite andb_true_iff, Ascii.eqb_eq, IH. split.
    + intros [-> Hp]. by apply prefix_cons.
    + intros Hp. split; [by eapply prefix_cons_inv_1 | by eapply prefix_cons_inv_2].
Qed.

Lemma find_Some_occurs (hay needle : text) (i : nat) :
  find hay needle = Some i ->
  hay = take i hay ++ needle ++ drop (i + length needle) hay /\ i + length needle <= length hay.
Proof.
  revert i; induction hay as [|c hay IH]; intros i Hf; simpl in Hf.
  - destruct (starts_with needle []) eqn:E; [|done].
    injection Hf as <-. apply starts_with_prefix in E. apply prefix_nil_inv in E as ->. done.
  - destruct (starts_with needle (c :: hay)) eqn:E.
    + injection Hf as <-. apply starts_with_prefix in E as [post E].
      rewrite E. change (0 + length needle) with (length needle).
      rewrite drop_app_length, length_app. split; [done | lia].
    + destruct (find hay needle) as [j|] eqn:F; [|done]. simpl in Hf. injection Hf as <-.
      destruct (IH j eq_refl) as [IH1 IH2]. simpl. split; [by f_equal | lia].
Qed.

Lemma find_Some_first (hay needle : text) (i : nat) :
  find hay needle = Some i ->
  forall pre post, hay = pre ++ needle ++ post -> i <= length pre.
Proof.
  revert i; induction hay as [|c hay IH]; intros i; simpl.
  - destruct (starts_with needle []); [|done]. intros [= <-] ???. lia.
  - destruct (starts_with needle (c :: hay)) eqn:E; [intros [= <-] ???; lia|].
    destruct (find hay needle) as [j|] eqn:F; [|done]. simpl. intros [= <-] pre post Hd.
    destruct pre as [|c' pre]; simpl in Hd.
    + assert (starts_with needle (c :: hay) = true); [|congruence].
      apply starts_with_prefix. exists post. done.
    + injection Hd as -> ->. simpl. specialize (IH j eq_refl pre post eq_refl). lia.
Qed.

Lemma find_None_absent (hay needle : text) :
  find hay needle = None -> forall pre post, hay <> pre ++ needle ++ post.
Proof.
  induction hay as [|c hay IH]; simpl.
  - destruct (starts_with needle []) eqn:E; [done|]. intros _ pre post Hd.
    symmetry in Hd. apply app_eq_nil in Hd as [-> Hd]. apply app_eq_nil in Hd as [-> ->].
    done.
  - destruct (starts_with needle (c :: hay)) eqn:E; [done|].
    destruct (find hay needle) eqn:F; [done|]. intros _ pre post Hd.
    destruct pre as [|c' pre]; simpl in Hd.
    + assert (starts_with needle (c :: hay) = true); [|congruence].
      apply starts_with_prefix. exists post. done.
    + injection Hd as -> ->. by eapply IH.
Qed.

Lemma find_absent_None (hay needle : text) :
  (forall pre post, hay <> pre ++ needle ++ post) -> find hay needle = None.
Proof.
  intros Hn. destruct (find hay needle) as [i|] eqn:F; [|done].
  apply find_Some_occurs in F as [F _]. by apply Hn in F.
Qed.

(** The first occurrence, stated as a decomposition. *)
Lemma find_first_occurrence (hay needle pre post : text) :
  hay = pre ++ needle ++ post ->
  (forall pre' post', hay = pre' ++ needle ++ post' -> length pre <= length pre') ->
  find hay needle = Some (length pre).
Proof.
  intros Hd Hmin. destruct (find hay needle) as [i|] eqn:F.
  - f_equal. pose proof (find_Some_first _ _ _ F _ _ Hd).
    destruct (find_Some_occurs _ _ _ F) as [Hd' Hle].
    apply Hmin in Hd'. rewrite length_take in Hd'. lia.
  - by eapply find_None_absent in F.
Qed.

(** ** [split_pattern] and [_set_pattern] *)

Lemma split_pattern_found (pattern : text) (i : nat) :
  find pattern message_token = Some i ->
  split_pattern pattern = Returns (take i pattern, drop (i + length message_token) pattern).
Proof.
  intros F. unfold split_pattern. rewrite F.
  destruct (find_Some_occurs _ _ _ F) as [_ Hle].
  unfold substr, substr_from. rewrite !decide_True by lia. done.
Qed.

Lemma split_pattern_absent (pattern : text) :
  (forall pre post, pattern <> pre ++ message_token ++ post) ->
  split_pattern pattern = Throws MissingPlaceholder.
Proof.
  intros Hn. unfold split_pattern. by rewrite (find_absent_None _ _ Hn).
Qed.

(** C2.  A pattern in which [%(message)] does not occur is rejected when the
    formatter is constructed: [_set_pattern] throws the runtime error
    "%(message) is required in the format pattern", and so does the
    constructor; no formatter is returned, so none can be used to render. *)
Theorem set_pattern_missing_placeholder `{ResolverTable} (pattern : text) :
  (forall pre post, pattern <> pre ++ message_token ++ post) ->
  (forall self, _set_pattern pattern self = Throws MissingPlaceholder) /\
  (forall date_format timestamp_precision timezone,
     new_PatternFormatter pattern date_format timestamp_precision timezone
     = Throws MissingPlaceholder).
Proof.
  intros Hn.
  assert (forall self, _set_pattern pattern self = Throws MissingPlaceholder) as Hs.
  { intros self. unfold _set_pattern. by rewrite (split_pattern_absent _ Hn). }
  split; [done|]. intros. unfold new_PatternFormatter. by rewrite Hs.
Qed.

Lemma set_pattern_missing_placeholder_witness :
  (forall pre post, lit "%(thread) [%(lineno)] no placeholder" <> pre ++ message_token ++ post) /\
  (forall self, @_set_pattern field_resolvers (lit "%(thread) [%(lineno)] no placeholder") self
                = Throws MissingPlaceholder) /\
  (forall date_format timestamp_precision timezone,
     @new_PatternFormatter field_resolvers (lit "%(thread) [%(lineno)] no placeholder")
       date_format timestamp_precision timezone = Throws MissingPlaceholder).
Proof.
  split.
  - apply find_None_absent. vm_compute. reflexivity.
  - apply (@set_pattern_missing_placeholder field_resolvers).
    apply find_None_absent. vm_compute. reflexivity.
Defined.

(** C10.  When [%(message)] occurs in the pattern, the pattern is cut at
    its first occurrence: part 1 is what precedes it, part 3 is everything
    that follows it, later occurrences included, and these two parts are
    what [_set_pattern] builds the helpers from.  The cut itself neither
    looks for a second occurrence nor throws. *)
Theorem set_pattern_splits_at_first `{ResolverTable} (pattern pre post : text) :
  pattern = pre ++ message_token ++ post ->
  (forall pre' post', pattern = pre' ++ message_token ++ post' -> length pre <= length pre') ->
  split_pattern pattern = Returns (pre, post) /\
  (forall self,
     _set_pattern pattern self =
     (arr <-! match _parse_format_pattern pattern with
              | Some arr => Returns arr
              | None => Throws undefined_behaviour
              end;
      helper_part_1 <-! _make_formatter_helper arr.1 pre;
      helper_part_3 <-! _make_formatter_helper arr.2 post;
      Returns {| _pattern_formatter_helper_part_1 := helper_part_1;
                 _pattern_formatter_helper_part_3 := helper_part_3;
                 _date_format := _date_format self;
                 _timezone_type := _timezone_type self;
                 _timestamp_precision := _timestamp_precision self |})).
Proof.
  intros Hd Hmin.
  assert (split_pattern pattern = Returns (pre, post)) as Hs.
  { rewrite (split_pattern_found _ _ (find_first_occurrence _ _ _ _ Hd Hmin)).
    rewrite Hd. rewrite take_app_length.
    rewrite (assoc_L (++)), <- length_app, drop_app_length. done. }
  split; [done|]. intros self. unfold _set_pattern. rewrite Hs. simpl.
  destruct (_parse_format_pattern pattern) as [[n1 n3]|]; done.
Qed.

Lemma set_pattern_splits_at_first_witness :
  split_pattern (lit "[%(thread)] %(message) | %(message) again")
  = Returns (lit "[%(thread)] ", lit " | %(message) again").
Proof.
  apply (@set_pattern_splits_at_first field_resolvers
           (lit "[%(thread)] %(message) | %(message) again")
           (lit "[%(thread)] ") (lit " | %(message) again")).
  - reflexivity.
  - apply (find_Some_first _ message_token 12). vm_compute. reflexivity.
Defined.

(** ** [_parse_format_pattern] *)

Lemma parse_loop_S fuel pattern pos found c1 c3 :
  parse_loop (S fuel) pattern pos found c1 c3 =
  if decide (pos < length pattern - 1) then
    if Ascii.eqb (c_at pattern pos) "%"%char then
      if negb found then
        let '(pos', matched) := match_chain pattern pos (lit "(message)") in
        if matched then parse_loop fuel pattern (S pos') true c1 c3
        else parse_loop fuel pattern (S pos') false (S c1) c3
      else parse_loop fuel pattern (S pos) true c1 (S c3)
    else parse_loop fuel pattern (S pos) found c1 c3
  else Some (c1, c3).
Proof. reflexivity. Qed.

Lemma match_chain_advances pattern expected pos :
  pos <= (match_chain pattern pos expected).1.
Proof.
  revert pos; induction expected as [|e expected IH]; intros pos; simpl; [lia|].
  destruct (Ascii.eqb _ _); simpl; [|lia]. specialize (IH (S pos)). lia.
Qed.

Lemma parse_loop_more_fuel fuel pattern pos found c1 c3 r :
  parse_loop fuel pattern pos found c1 c3 = Some r ->
  parse_loop (S fuel) pattern pos found c1 c3 = Some r.
Proof.
  revert pos found c1 c3; induction fuel as [|fuel IH]; intros pos found c1 c3; [done|].
  rewrite (parse_loop_S (S fuel)), (parse_loop_S fuel).
  repeat case_match; auto.
Qed.

Lemma parse_loop_fuel_le fuel fuel' pattern pos found c1 c3 r :
  fuel <= fuel' ->
  parse_loop fuel pattern pos found c1 c3 = Some r ->
  parse_loop fuel' pattern pos found c1 c3 = Some r.
Proof.
  induction 1 as [|fuel' _ IH]; [done|]. intros Hp. by apply parse_loop_more_fuel, IH.
Qed.

(** The loop terminates: [length pattern - pos] iterations are enough. *)
Lemma parse_loop_fuel fuel pattern pos found c1 c3 :
  0 < fuel -> length pattern <= pos + fuel ->
  is_Some (parse_loop fuel pattern pos found c1 c3).
Proof.
  revert pos found c1 c3; induction fuel as [|fuel IH]; intros pos found c1 c3 Hpos Hlen; [lia|].
  rewrite parse_loop_S. case_decide as Hlt; [|by eexists].
  pose proof (match_chain_advances pattern (lit "(message)") pos).
  repeat case_match; simplify_eq/=; apply IH; lia.
Qed.

Lemma parse_from_result pattern r :
  pattern <> [] -> parse_from pattern 0 false 0 0 r -> _parse_format_pattern pattern = Some r.
Proof.
  intros Hne [fuel Hf]. destruct pattern as [|c pattern]; [done|].
  unfold _parse_format_pattern.
  destruct (parse_loop_fuel (length (c :: pattern)) (c :: pattern) 0 false 0 0) as [r' Hr'];
    [simpl; lia | lia |].
  rewrite Hr'. f_equal.
  destruct (decide (fuel <= length (c :: pattern))) as [Hle|Hle].
  - apply (parse_loop_fuel_le _ _ _ _ _ _ _ _ Hle) in Hf. congruence.
  - assert (length (c :: pattern) <= fuel) as Hge by lia.
    apply (parse_loop_fuel_le _ _ _ _ _ _ _ _ Hge) in Hr'. congruence.
Qed.

(** [_parse_format_pattern] has a value for every pattern but the empty
    one; in particular for every pattern that passes the check of
    [_set_pattern]. *)
Lemma parse_defined pattern :
  pattern <> [] -> is_Some (_parse_format_pattern pattern).
Proof.
  destruct pattern as [|c pattern]; [done|]. intros _.
  apply parse_loop_fuel; simpl; lia.
Qed.

Lemma parse_defined_after_split pattern parts :
  split_pattern pattern = Returns parts -> is_Some (_parse_format_pattern pattern).
Proof.
  intros Hs. apply parse_defined. intros ->. vm_compute in Hs. done.
Qed.

(** Steps of the loop, read backwards. *)

Lemma parse_from_end pattern pos found c1 c3 :
  length pattern - 1 <= pos -> parse_from pattern pos found c1 c3 (c1, c3).
Proof. intros Hle. exists 1. rewrite parse_loop_S. by rewrite decide_False by lia. Qed.

Lemma parse_from_end_inv pattern pos found c1 c3 r :
  length pattern - 1 <= pos -> parse_from pattern pos found c1 c3 r -> r = (c1, c3).
Proof.
  intros Hle [[|fuel] Hf]; [done|]. rewrite parse_loop_S in Hf.
  rewrite decide_False in Hf by lia. congruence.
Qed.

Lemma parse_from_skip pattern pos pos' found c1 c3 r :
  pos <= pos' ->
  (forall i, pos <= i < pos' -> c_at pattern i <> "%"%char) ->
  parse_from pattern pos' found c1 c3 r -> parse_from pattern pos found c1 c3 r.
Proof.
  intros Hle. induction Hle as [|pos' Hle IH]; [done|]. intros Hc Hp.
  apply IH; [intros i Hi; apply Hc; lia|].
  destruct (decide (pos' < length pattern - 1)) as [Hlt|Hge].
  - destruct Hp as [fuel Hf]. exists (S fuel). rewrite parse_loop_S.
    rewrite decide_True by done.
    assert (Ascii.eqb (c_at pattern pos') "%" = false) as ->; [|done].
    apply Ascii.eqb_neq, Hc. lia.
  - apply parse_from_end_inv in Hp as ->; [|lia]. apply parse_from_end. lia.
Qed.

Lemma parse_from_percent_after pattern pos c1 c3 r :
  pos < length pattern - 1 -> c_at pattern pos = "%"%char ->
  parse_from pattern (S pos) true c1 (S c3) r -> parse_from pattern pos true c1 c3 r.
Proof.
  intros Hlt Hc [fuel Hf]. exists (S fuel). rewrite parse_loop_S.
  rewrite decide_True by done. rewrite Hc. done.
Qed.

Lemma parse_from_percent_before pattern pos pos' matched c1 c3 r :
  pos < length pattern - 1 -> c_at pattern pos = "%"%char ->
  match_chain pattern pos (lit "(message)") = (pos', matched) ->
  parse_from pattern (S pos') matched (if matched then c1 else S c1) c3 r ->
  parse_from pattern pos false c1 c3 r.
Proof.
  intros Hlt Hc Hm [fuel Hf]. exists (S fuel). rewrite parse_loop_S.
  rewrite decide_True by done. rewrite Hc, Hm. simpl. by destruct matched.
Qed.

(** Reading a pattern that is given as a concatenation. *)

Lemma c_at_app_r (pre s : text) (i : nat) : c_at (pre ++ s) (length pre + i) = c_at s i.
Proof. unfold c_at. rewrite app_nth2 by lia. f_equal. lia. Qed.

Lemma c_at_app_l (s rest : text) (i : nat) : i < length s -> c_at (s ++ rest) i = c_at s i.
Proof. intros Hi. unfold c_at. by rewrite app_nth1. Qed.

Lemma c_at_no_percent (pre s rest : text) (i : nat) :
  Forall (fun c => c <> "%"%char) s ->
  length pre <= i < length pre + length s ->
  c_at (pre ++ s ++ rest) i <> "%"%char.
Proof.
  intros Hs Hi. replace i with (length pre + (i - length pre)) by lia.
  rewrite c_at_app_r, c_at_app_l by lia.
  rewrite Forall_forall in Hs. apply Hs. apply list_elem_of_In, nth_In. lia.
Qed.

Lemma match_chain_matches (pre expected rest : text) (k : nat) :
  S k = length pre ->
  match_chain (pre ++ expected ++ rest) k expected = (k + length expected, true).
Proof.
  revert pre k; induction expected as [|e expected IH]; intros pre k Hk; simpl.
  - f_equal. lia.
  - rewrite Hk. rewrite <- (Nat.add_0_r (length pre)), c_at_app_r. unfold c_at at 1. simpl.
    rewrite Ascii.eqb_refl.
    rewrite (cons_middle e), (assoc_L (++) pre), Nat.add_0_r.
    rewrite (IH (pre ++ [e]) (length pre)) by (rewrite length_app; simpl; lia).
    f_equal. lia.
Qed.

(** The chain stops inside a token whose name is not the expected one. *)
Lemma match_chain_mismatch (expected name pre rest : text) (k : nat) :
  ")"%char ∉ expected -> ")"%char ∉ name -> name <> expected ->
  S k = length pre ->
  exists pos, match_chain (pre ++ name ++ ")"%char :: rest) k (expected ++ [")"%char]) = (pos, false)
              /\ length pre <= pos <= length pre + length name.
Proof.
  revert name pre k; induction expected as [|e expected IH]; intros name pre k He Hn Hne Hk;
    simpl; rewrite Hk; rewrite <- (Nat.add_0_r (length pre)), c_at_app_r, Nat.add_0_r.
  - destruct name as [|a name]; [done|]. unfold c_at; cbn [nth app].
    assert (Ascii.eqb a ")" = false) as ->.
    { apply Ascii.eqb_neq. intros ->. apply Hn. left. }
    eexists; split; [done|]. simpl. lia.
  - destruct name as [|a name]; unfold c_at; cbn [nth app].
    + assert (Ascii.eqb ")" e = false) as ->.
      { apply Ascii.eqb_neq. intros <-. apply He. left. }
      eexists; split; [done|]. lia.
    + destruct (Ascii.eqb a e) eqn:Eae; [|eexists; split; [done|lia]].
      apply Ascii.eqb_eq in Eae as ->.
      destruct (IH name (pre ++ [e]) (length pre)) as (pos & Hm & Hpos).
      * intros Hin. apply He. by right.
      * intros Hin. apply Hn. by right.
      * congruence.
      * rewrite length_app; simpl; lia.
      * rewrite <- (assoc_L (++) pre) in Hm. simpl in Hm. rewrite Hm.
        exists pos; split; [done|]. rewrite length_app in Hpos. simpl in Hpos. simpl. lia.
Qed.

Lemma token_text_length name : length (token_text name) = length name + 3.
Proof. unfold token_text. rewrite !length_app. simpl. lia. Qed.

Lemma token_text_tail_no_percent name :
  "%"%char ∉ name -> Forall (fun c => c <> "%"%char) (lit "(" ++ name ++ lit ")").
Proof.
  intros Hn. apply Forall_app; split; [by repeat constructor|].
  apply Forall_app; split; [|by repeat constructor].
  apply Forall_forall. intros c Hc ->. done.
Qed.

Lemma token_text_split pre name rest :
  pre ++ token_text name ++ rest = (pre ++ ["%"%char]) ++ (lit "(" ++ name ++ lit ")") ++ rest.
Proof. unfold token_text. by rewrite <- !(assoc_L (++)). Qed.

Lemma message_no_paren : ")"%char ∉ lit "message".
Proof. apply (bool_decide_unpack _). by vm_compute. Qed.

(** A token that is not [%(message)], met before the message has been found,
    adds one to the counter of part 1. *)
Lemma parse_from_token_before (pre name rest : text) c1 c3 r :
  "%"%char ∉ name -> ")"%char ∉ name -> name <> lit "message" ->
  parse_from (pre ++ token_text name ++ rest) (length pre + length (token_text name)) false (S c1) c3 r ->
  parse_from (pre ++ token_text name ++ rest) (length pre) false c1 c3 r.
Proof.
  intros Hp Hc Hne Hr.
  set (pattern := pre ++ token_text name ++ rest) in *.
  assert (length pattern = length pre + (length name + 3) + length rest) as Hlen.
  { unfold pattern. rewrite !length_app, token_text_length. lia. }
  destruct (match_chain_mismatch (lit "message") name (pre ++ lit "%(") rest (S (length pre)))
    as (pos & Hm & Hpos); [apply message_no_paren | done | done | rewrite length_app; simpl; lia |].
  rewrite length_app in Hpos. simpl in Hpos.
  apply (parse_from_percent_before _ _ pos false); [lia | | |].
  - unfold pattern. rewrite <- (Nat.add_0_r (length pre)), c_at_app_r. done.
  - change (lit "(message)") with ("("%char :: lit "message" ++ [")"%char]).
    cbn [match_chain].
    assert (c_at pattern (S (length pre)) = "("%char) as ->.
    { unfold pattern. replace (S (length pre)) with (length pre + 1) by lia.
      rewrite c_at_app_r. done. }
    rewrite Ascii.eqb_refl. rewrite <- Hm. unfold pattern, token_text.
    by rewrite <- !(assoc_L (++)).
  - eapply parse_from_skip; [| |exact Hr]; [rewrite token_text_length; lia|].
    intros i Hi. unfold pattern. rewrite token_text_split.
    apply c_at_no_percent; [by apply token_text_tail_no_percent|].
    rewrite token_text_length in Hi. rewrite !length_app. simpl. lia.
Qed.

(** Any token met after the message has been found adds one to the counter
    of part 3. *)
Lemma parse_from_token_after (pre name rest : text) c1 c3 r :
  "%"%char ∉ name ->
  parse_from (pre ++ token_text name ++ rest) (length pre + length (token_text name)) true c1 (S c3) r ->
  parse_from (pre ++ token_text name ++ rest) (length pre) true c1 c3 r.
Proof.
  intros Hp Hr.
  set (pattern := pre ++ token_text name ++ rest) in *.
  assert (length pattern = length pre + (length name + 3) + length rest) as Hlen.
  { unfold pattern. rewrite !length_app, token_text_length. lia. }
  apply parse_from_percent_after; [lia | |].
  - unfold pattern. rewrite <- (Nat.add_0_r (length pre)), c_at_app_r. done.
  - eapply parse_from_skip; [| |exact Hr]; [rewrite token_text_length; lia|].
    intros i Hi. unfold pattern. rewrite token_text_split.
    apply c_at_no_percent; [by apply token_text_tail_no_percent|].
    rewrite token_text_length in Hi. rewrite !length_app. simpl. lia.
Qed.

(** The message token itself. *)
Lemma parse_from_message (pre rest : text) c1 c3 r :
  parse_from (pre ++ message_token ++ rest) (length pre + length message_token) true c1 c3 r ->
  parse_from (pre ++ message_token ++ rest) (length pre) false c1 c3 r.
Proof.
  intros Hr.
  apply (parse_from_percent_before _ _ (length pre + 9) true).
  - rewrite !length_app. simpl. lia.
  - rewrite <- (Nat.add_0_r (length pre)), c_at_app_r. done.
  - change (pre ++ message_token ++ rest)
      with (pre ++ "%"%char :: (lit "(message)" ++ rest)).
    rewrite (cons_middle "%"%char), (assoc_L (++) pre).
    rewrite (match_chain_matches (pre ++ ["%"%char]) (lit "(message)") rest (length pre))
      by (rewrite length_app; simpl; lia).
    done.
  - replace (S (length pre + 9)) with (length pre + length message_token) by (simpl; lia).
    done.
Qed.

Lemma items_text_cons item items :
  items_text (item :: items) = item_text item ++ items_text items.
Proof. reflexivity. Qed.

(** The scan over the items of part 1 ... *)
Lemma parse_from_items_before (items : list segment_item) :
  Forall plain_item items -> Token (lit "message") ∉ items ->
  forall pre rest c1 c3 r,
    parse_from (pre ++ items_text items ++ rest)
               (length pre + length (items_text items)) false (c1 + count_tokens items) c3 r ->
    parse_from (pre ++ items_text items ++ rest) (length pre) false c1 c3 r.
Proof.
  induction 1 as [|item items Hitem _ IH]; intros Hmsg pre rest c1 c3 r.
  - simpl. by rewrite !Nat.add_0_r.
  - assert (Token (lit "message") ∉ items) as Hmsg' by (intros ?; apply Hmsg; by right).
    rewrite items_text_cons, length_app, <- (assoc_L (++) (item_text item)).
    rewrite (assoc_L (++) pre (item_text item)), Nat.add_assoc, <- (length_app pre).
    destruct item as [c|name]; simpl in Hitem; cbn [count_tokens].
    + intros Hr. apply IH in Hr; [|done].
      eapply parse_from_skip; [| |exact Hr]; [rewrite length_app; lia|].
      intros i Hi. rewrite length_app in Hi. simpl in Hi.
      assert (i = length pre) as -> by lia.
      rewrite <- (assoc_L (++) pre), <- (Nat.add_0_r (length pre)), c_at_app_r. done.
    + destruct Hitem as [Hp Hc]. rewrite Nat.add_succ_r, <- Nat.add_succ_l.
      intros Hr. apply IH in Hr; [|done].
      rewrite <- (assoc_L (++) pre) in Hr |- *. rewrite length_app in Hr.
      apply parse_from_token_before; [done | done | | done].
      intros ->. apply Hmsg. left.
Qed.

(** ... and over the items of part 3. *)
Lemma parse_from_items_after (items : list segment_item) :
  Forall plain_item items ->
  forall pre rest c1 c3 r,
    parse_from (pre ++ items_text items ++ rest)
               (length pre + length (items_text items)) true c1 (c3 + count_tokens items) r ->
    parse_from (pre ++ items_text items ++ rest) (length pre) true c1 c3 r.
Proof.
  induction 1 as [|item items Hitem _ IH]; intros pre rest c1 c3 r.
  - simpl. by rewrite !Nat.add_0_r.
  - rewrite items_text_cons, length_app, <- (assoc_L (++) (item_text item)).
    rewrite (assoc_L (++) pre (item_text item)), Nat.add_assoc, <- (length_app pre).
    destruct item as [c|name]; simpl in Hitem; cbn [count_tokens].
    + intros Hr. apply IH in Hr.
      eapply parse_from_skip; [| |exact Hr]; [rewrite length_app; lia|].
      intros i Hi. rewrite length_app in Hi. simpl in Hi.
      assert (i = length pre) as -> by lia.
      rewrite <- (assoc_L (++) pre), <- (Nat.add_0_r (length pre)), c_at_app_r. done.
    + destruct Hitem as [Hp Hc]. rewrite Nat.add_succ_r, <- Nat.add_succ_l.
      intros Hr. apply IH in Hr.
      rewrite <- (assoc_L (++) pre) in Hr |- *. rewrite length_app in Hr.
      by apply parse_from_token_after.
Qed.

Lemma parse_items (items1 items3 : list segment_item) :
  Forall plain_item items1 -> Forall plain_item items3 ->
  Token (lit "message") ∉ items1 ->
  _parse_format_pattern (items_text items1 ++ message_token ++ items_text items3)
  = Some (count_tokens items1, count_tokens items3).
Proof.
  intros H1 H3 Hmsg. apply parse_from_result.
  { intros Heq. apply (f_equal length) in Heq. rewrite !length_app in Heq. simpl in Heq. lia. }
  apply (parse_from_items_before items1 H1 Hmsg [] _ 0 0).
  change (items_text items1 ++ message_token ++ items_text items3)
    with ([] ++ items_text items1 ++ message_token ++ items_text items3).
  rewrite (assoc_L (++) []), <- (length_app []).
  apply parse_from_message.
  rewrite <- length_app, (assoc_L (++) ([] ++ _)).
  rewrite <- (app_nil_r (_ ++ items_text items3)), <- (assoc_L (++)).
  apply (parse_from_items_after items3 H3 _ [] _ 0).
  apply parse_from_end. rewrite !length_app. simpl. lia.
Qed.

(** The tokens of a part are found again by the scan of the callbacks. *)

Lemma tokenize_name (name acc rest : text) :
  ")"%char ∉ name ->
  tokenize (Some acc) (name ++ ")"%char :: rest)
  = (items <-! tokenize None rest; Returns (Token (reverse acc ++ name) :: items)).
Proof.
  revert acc; induction name as [|a name IH]; intros acc Hn; cbn [tokenize app].
  - rewrite Ascii.eqb_refl. by rewrite app_nil_r.
  - assert (Ascii.eqb a ")" = false) as ->.
    { apply Ascii.eqb_neq. intros ->. apply Hn. left. }
    rewrite IH by (intros ?; apply Hn; by right).
    by rewrite reverse_cons, <- (assoc_L (++)).
Qed.

Lemma tokenize_items (items : list segment_item) :
  Forall plain_item items -> tokenize None (items_text items) = Returns items.
Proof.
  induction 1 as [|item items Hitem _ IH]; [done|].
  rewrite items_text_cons. destruct item as [c|name]; simpl in Hitem.
  - cbn [item_text app tokenize].
    apply Ascii.eqb_neq in Hitem. rewrite Hitem, IH. done.
  - destruct Hitem as [_ Hc]. unfold item_text, token_text.
    rewrite <- !(assoc_L (++)). change (lit "%(" ++ ?t) with ("%"%char :: "("%char :: t).
    cbn [tokenize]. rewrite !Ascii.eqb_refl.
    change (lit ")" ++ ?t) with (")"%char :: t).
    rewrite tokenize_name by done. rewrite IH. done.
Qed.

Lemma bind_callbacks_length `{ResolverTable} items callbacks :
  bind_callbacks items = Returns callbacks -> length callbacks = count_tokens items.
Proof.
  revert callbacks; induction items as [|[c|name] items IH]; intros callbacks; simpl.
  - by intros [= <-].
  - apply IH.
  - destruct (_select_argument_callback name); [|done].
    destruct (bind_callbacks items) as [callbacks'|]; [|done]. simpl.
    intros [= <-]. simpl. f_equal. by apply IH.
Qed.

(** The cut of [_set_pattern] falls between the two item sequences. *)

Lemma starts_with_first_differs (needle hay : text) c d :
  c <> d -> starts_with (c :: needle) (d :: hay) = false.
Proof. intros Hne. simpl. apply Ascii.eqb_neq in Hne. by rewrite Hne. Qed.

Lemma find_skip (s hay : text) :
  Forall (fun c => c <> "%"%char) s ->
  find (s ++ hay) message_token = (fun n => length s + n) <$> find hay message_token.
Proof.
  induction 1 as [|c s Hc _ IH].
  - simpl. by destruct (find hay message_token).
  - cbn [app find]. unfold message_token at 1.
    change (lit "%(message)") with ("%"%char :: lit "(message)").
    rewrite starts_with_first_differs by done. rewrite IH.
    by destruct (find hay message_token).
Qed.

Lemma app_cons_first {A} (x : A) (a b p q : list A) :
  x ∉ a -> x ∉ b -> a ++ x :: p = b ++ x :: q -> a = b.
Proof.
  revert b; induction a as [|y a IH]; intros [|z b] Ha Hb Heq; simpl in Heq.
  - done.
  - injection Heq as <- _. exfalso. apply Hb. left.
  - injection Heq as -> _. exfalso. apply Ha. left.
  - injection Heq as -> Heq. f_equal. apply IH; [| |done].
    + intros ?; apply Ha; by right.
    + intros ?; apply Hb; by right.
Qed.

Lemma starts_with_other_token (name hay : text) :
  ")"%char ∉ name -> name <> lit "message" ->
  starts_with message_token (token_text name ++ hay) = false.
Proof.
  intros Hc Hne. destruct (starts_with _ _) eqn:E; [|done].
  apply starts_with_prefix in E as [post E]. contradict Hne.
  unfold token_text in E. rewrite <- !(assoc_L (++)) in E.
  change (lit "%(" ++ ?t) with ("%"%char :: "("%char :: t) in E.
  change (message_token ++ post)
    with ("%"%char :: "("%char :: lit "message" ++ ")"%char :: post) in E.
  injection E as E. change (lit ")" ++ ?t) with (")"%char :: t) in E.
  exact (app_cons_first ")"%char name (lit "message") hay post Hc message_no_paren E).
Qed.

Lemma find_items (items : list segment_item) (rest : text) :
  Forall plain_item items -> Token (lit "message") ∉ items ->
  find (items_text items ++ message_token ++ rest) message_token
  = Some (length (items_text items)).
Proof.
  induction 1 as [|item items Hitem _ IH]; intros Hmsg.
  - simpl. replace (starts_with message_token (message_token ++ rest)) with true; [done|].
    symmetry. apply starts_with_prefix. by exists rest.
  - assert (Token (lit "message") ∉ items) as Hmsg' by (intros ?; apply Hmsg; by right).
    rewrite items_text_cons, <- (assoc_L (++)), length_app.
    destruct item as [c|name]; simpl in Hitem.
    + rewrite (find_skip [c]) by (by repeat constructor). rewrite IH by done. done.
    + destruct Hitem as [Hp Hc].
      assert (name <> lit "message") as Hne by (intros ->; apply Hmsg; left).
      unfold item_text.
      pose proof (starts_with_other_token name (items_text items ++ message_token ++ rest) Hc Hne)
        as Hsw.
      pose proof (token_text_split [] name (items_text items ++ message_token ++ rest)) as Heq.
      cbn [app] in Heq. rewrite Heq in Hsw |- *. cbn [find]. rewrite Hsw.
      rewrite find_skip by (by apply token_text_tail_no_percent).
      rewrite IH by done. simpl. by rewrite !length_app.
Qed.

Lemma split_items (items1 items3 : list segment_item) :
  Forall plain_item items1 -> Token (lit "message") ∉ items1 ->
  split_pattern (items_text items1 ++ message_token ++ items_text items3)
  = Returns (items_text items1, items_text items3).
Proof.
  intros H1 Hmsg. rewrite (split_pattern_found _ _ (find_items _ _ H1 Hmsg)).
  rewrite take_app_length.
  rewrite (assoc_L (++)), <- length_app, drop_app_length. done.
Qed.

(** C4, as stated, fails: a ['%'] that does not start a token is counted.
    In [100% %(message)] part 1 is [100% ], which holds no token and gets no
    callback, yet its counter is 1.  The pattern is accepted. *)
Lemma resolver_count_counts_stray_percent :
  ~ @counts_recognized_tokens field_resolvers (lit "100% %(message)") /\
  _parse_format_pattern (lit "100% %(message)") = Some (1, 0) /\
  @_generate_vector_of_callbacks field_resolvers (lit "100% ") = Returns [] /\
  exists fm, @_set_pattern field_resolvers (lit "100% %(message)") default_members = Returns fm.
Proof.
  split; [|split; [by vm_compute | split; [by vm_compute | by eexists]]].
  intros Hc.
  destruct (Hc (lit "100% ") [] 1 0 [] []) as [Hn _]; by vm_compute.
Qed.

(** C4, amended.  In a pattern whose every ['%'] starts a token [%(name)]
    (the name holding neither ['%'] nor [')'], and no token before the cut
    being [%(message)]), the cut falls between the two item sequences, the
    scan of each part finds exactly its items, and the counters of
    [_parse_format_pattern] are the numbers of tokens before and after the
    cut; hence they are the numbers of callbacks of the two parts. *)
Theorem resolver_counts_of_plain_pattern `{ResolverTable} (items1 items3 : list segment_item) :
  Forall plain_item items1 -> Forall plain_item items3 ->
  Token (lit "message") ∉ items1 ->
  split_pattern (items_text items1 ++ message_token ++ items_text items3)
    = Returns (items_text items1, items_text items3) /\
  tokenize None (items_text items1) = Returns items1 /\
  tokenize None (items_text items3) = Returns items3 /\
  _parse_format_pattern (items_text items1 ++ message_token ++ items_text items3)
    = Some (count_tokens items1, count_tokens items3) /\
  counts_recognized_tokens (items_text items1 ++ message_token ++ items_text items3).
Proof.
  intros H1 H3 Hmsg.
  pose proof (split_items items1 items3 H1 Hmsg) as Hsplit.
  pose proof (tokenize_items items1 H1) as Ht1.
  pose proof (tokenize_items items3 H3) as Ht3.
  pose proof (parse_items items1 items3 H1 H3 Hmsg) as Hparse.
  split_and!; try done.
  intros p1 p3 n1 n3 cbs1 cbs3 Hs Hp Hg1 Hg3.
  rewrite Hsplit in Hs; injection Hs as <- <-.
  rewrite Hparse in Hp; injection Hp as <- <-.
  unfold _generate_vector_of_callbacks in Hg1, Hg3.
  rewrite Ht1 in Hg1; rewrite Ht3 in Hg3; simpl in Hg1, Hg3.
  split; symmetry; by apply bind_callbacks_length.
Qed.

Lemma resolver_counts_of_plain_pattern_witness :
  _parse_format_pattern (lit "%(thread) [%(lineno)] %(message) (%(logger_name))") = Some (2, 1).
Proof.
  apply (@resolver_counts_of_plain_pattern field_resolvers
           [Token (lit "thread"); Literal " "%char; Literal "["%char; Token (lit "lineno");
            Literal "]"%char; Literal " "%char]
           [Literal " "%char; Literal "("%char; Token (lit "logger_name"); Literal ")"%char]).
  - apply (bool_decide_unpack _). vm_compute. exact I.
  - apply (bool_decide_unpack _). vm_compute. exact I.
  - apply (bool_decide_unpack _). vm_compute. exact I.
Defined.

(** ** [PatternFormatter::format] *)

Section FormatFacts.
Context `{FmtEngine}.

Lemma format_to_appends format_string args buffer :
  format_to format_string args buffer =
  (buffer ++ (fmt_format_to format_string args).1, (fmt_format_to format_string args).2).
Proof. unfold format_to. by destruct (fmt_format_to format_string args). Qed.

(** A helper only appends to the buffer it is given. *)
Lemma format_part_appends helper timestamp thread_id logger_name logline_info buffer :
  format_part helper timestamp thread_id logger_name logline_info buffer =
  (buffer ++ (format_part helper timestamp thread_id logger_name logline_info []).1,
   (format_part helper timestamp thread_id logger_name logline_info []).2).
Proof.
  destruct helper as [h|]; simpl.
  - unfold helper_format. by rewrite !format_to_appends.
  - unfold eret. simpl. by rewrite app_nil_r.
Qed.

(** The buffer left by an earlier call has no influence. *)
Lemma format_clears self timestamp thread_id logger_name logline_info args buffer :
  format self timestamp thread_id logger_name logline_info args buffer =
  format self timestamp thread_id logger_name logline_info args [].
Proof. reflexivity. Qed.



End FormatFacts.


(** What the constructor with a custom format builds is what [_set_pattern]
    builds on an object that holds the constructor's arguments. *)
Lemma PatternFormatter_custom_eq `{MemberResolverTable} format_pattern date_format
    timestamp_precision timezone :
  PatternFormatter_custom format_pattern date_format timestamp_precision timezone
  = _set_pattern_this format_pattern
      (with_date_members default_members date_format timestamp_precision timezone).
Proof.
  unfold PatternFormatter_custom, _set_pattern_this, new_PatternFormatter.
  set (T := table_of _). unfold _set_pattern.
  destruct (split_pattern format_pattern) as [[p1 p3]|]; [|done]. simpl.
  destruct (_parse_format_pattern format_pattern) as [[n1 n3]|]; [|done]. simpl.
  destruct (_make_formatter_helper n1 p1) as [h1|]; [|done]. simpl.
  destruct (_make_formatter_helper n3 p3) as [h3|]; [|done]. done.
Qed.



(** ** [LogRecord::backend_process] *)

Section DispatchFacts.
Context `{FmtEngine} `{Backend}.
Context (registry : Registry) (self : LogRecord) (logger_details : LoggerDetails).
Context (thread_id : text) (log_record_timestamp : nanoseconds).

Local Abbreviation forward := (forward_to_handler registry self logger_details thread_id log_record_timestamp).
Local Abbreviation render := (render_for self logger_details thread_id log_record_timestamp).
Local Abbreviation text_for := (rendered_text registry self logger_details thread_id log_record_timestamp).
Local Abbreviation event_for := (write_event registry self logger_details thread_id log_record_timestamp).
Local Abbreviation delivered_to := (delivered registry self logger_details thread_id log_record_timestamp).
Local Abbreviation delivers_to := (delivers registry self logger_details thread_id log_record_timestamp).

(** The loop body, case by case. *)

Lemma forward_dangling handler w :
  handler_objects registry !! handler = None ->
  forward handler w = (w, Throws undefined_behaviour).
Proof. intros Hh. unfold forward_to_handler, deref, ebind. by rewrite Hh. Qed.

Lemma forward_rendered handler h w :
  handler_objects registry !! handler = Some h ->
  (render h).2 = Returns tt ->
  forward handler w =
  ({| formatter_buffers := <[handler := text_for handler]> (formatter_buffers w);
      calls := calls w ++ [event_for handler] |},
   write h (text_for handler) log_record_timestamp).
Proof.
  intros Hh Hr. unfold forward_to_handler, deref, ebind at 1. rewrite Hh. unfold eret.
  unfold ebind, with_formatter_buffer, formatted_log_record, call_write, ebind, emit, emodify.
  rewrite format_clears. unfold write_event, rendered_text. rewrite Hh.
  unfold render_for in Hr |- *.
  destruct (format _ _ _ _ _ _ []) as [buffer r]. simpl in Hr. subst r. simpl.
  by rewrite lookup_insert_eq.
Qed.

Lemma forward_render_throws handler h e w :
  handler_objects registry !! handler = Some h ->
  (render h).2 = Throws e ->
  forward handler w =
  ({| formatter_buffers := <[handler := text_for handler]> (formatter_buffers w);
      calls := calls w |}, Throws e).
Proof.
  intros Hh Hr. unfold forward_to_handler, deref, ebind at 1. rewrite Hh. unfold eret.
  unfold ebind, with_formatter_buffer.
  rewrite format_clears. unfold rendered_text. rewrite Hh.
  unfold render_for in Hr |- *.
  destruct (format _ _ _ _ _ _ []) as [buffer r]. simpl in Hr. subst r. done.
Qed.

Lemma forward_delivers handler w :
  delivers_to handler -> forward handler w = (delivered_to w [handler], Returns tt).
Proof.
  intros (h & Hh & Hr & Hw). rewrite (forward_rendered _ h) by done.
  unfold rendered_text. rewrite Hh. rewrite Hw. simpl. unfold write_event, rendered_text.
  by rewrite Hh.
Qed.

Lemma forward_returns_inv handler w w' :
  forward handler w = (w', Returns tt) ->
  delivers_to handler /\ w' = delivered_to w [handler].
Proof.
  intros Hf. destruct (handler_objects registry !! handler) as [h|] eqn:Hh.
  - destruct ((render h).2) as [[]|e] eqn:Hr.
    + rewrite (forward_rendered _ h) in Hf by done. injection Hf as <- Hw. split; [|done].
      exists h. split_and!; [done | done |]. unfold rendered_text in Hw. by rewrite Hh in Hw.
    + rewrite (forward_render_throws _ h e) in Hf by done. done.
  - rewrite forward_dangling in Hf by done. done.
Qed.

(** Whatever happens in the body, it calls no collaborator or it calls
    [write] of its handler once; when it calls nothing it throws. *)
Lemma forward_calls handler w :
  (calls (forward handler w).1 = calls w /\ (forward handler w).2 <> Returns tt) \/
  calls (forward handler w).1 = calls w ++ [event_for handler].
Proof.
  destruct (handler_objects registry !! handler) as [h|] eqn:Hh.
  - destruct ((render h).2) as [[]|e] eqn:Hr.
    + right. by rewrite (forward_rendered _ h).
    + left. by rewrite (forward_render_throws _ h e).
  - left. by rewrite forward_dangling.
Qed.

(** The loop. *)

Lemma delivered_app w l1 l2 : delivered_to w (l1 ++ l2) = delivered_to (delivered_to w l1) l2.
Proof. unfold delivered. apply foldl_app. Qed.

Lemma delivered_calls w l : calls (delivered_to w l) = calls w ++ map event_for l.
Proof.
  revert w; induction l as [|handler l IH]; intros w; simpl.
  - by rewrite app_nil_r.
  - unfold delivered in IH |- *. simpl. rewrite IH. simpl. by rewrite <- (assoc_L (++)).
Qed.

Lemma delivered_buffers w l handler :
  handler ∉ l -> formatter_buffers (delivered_to w l) !! handler = formatter_buffers w !! handler.
Proof.
  revert w; induction l as [|handler' l IH]; intros w Hn; [done|].
  unfold delivered in IH |- *. simpl. rewrite IH by (intros ?; apply Hn; by right).
  simpl. apply lookup_insert_ne. intros ->. apply Hn. left.
Qed.

Lemma efor_delivers l w :
  Forall delivers_to l -> efor l forward w = (delivered_to w l, Returns tt).
Proof.
  intros Hl. revert w. induction Hl as [|handler l Hd _ IH]; intros w; [done|].
  cbn [efor]. unfold ebind. rewrite forward_delivers by done. rewrite IH.
  by rewrite <- delivered_app.
Qed.

Lemma efor_returns_inv l w w' :
  efor l forward w = (w', Returns tt) -> Forall delivers_to l /\ w' = delivered_to w l.
Proof.
  revert w; induction l as [|handler l IH]; intros w; cbn [efor].
  - unfold eret. intros [= <-]. done.
  - unfold ebind. destruct (forward handler w) as [w1 [[]|e]] eqn:Hf; [|done].
    apply forward_returns_inv in Hf as [Hd ->]. intros [Hl ->]%IH.
    split; [by constructor|]. by rewrite <- delivered_app.
Qed.

Lemma efor_throws_at before failing after w w1 e :
  Forall delivers_to before ->
  forward failing (delivered_to w before) = (w1, Throws e) ->
  efor (before ++ failing :: after) forward w = (w1, Throws e).
Proof.
  intros Hb. revert w. induction Hb as [|handler l Hd _ IH]; intros w Hf.
  - cbn [app efor]. unfold ebind. change (delivered_to w []) with w in Hf. by rewrite Hf.
  - cbn [app efor]. unfold ebind. rewrite forward_delivers by done.
    apply IH. by rewrite <- delivered_app.
Qed.




(** The calls of a loop, however it ends, are [write] calls to a prefix of
    the handlers, in order; when the loop throws, nothing else is called. *)
Lemma efor_calls l w :
  exists k, calls (efor l forward w).1 = calls w ++ map event_for (take k l) /\
            ((efor l forward w).2 = Returns tt -> k = length l).
Proof.
  revert w; induction l as [|handler l IH]; intros w; cbn [efor].
  - exists 0. simpl. by rewrite app_nil_r.
  - unfold ebind. destruct (forward_calls handler w) as [[Hc Hr]|Hc];
      destruct (forward handler w) as [w1 [[]|e]] eqn:Hf; simpl in *.
    + done.
    + exists 0. simpl. by rewrite app_nil_r.
    + destruct (IH w1) as (k & Hk & Hlen). exists (S k). rewrite Hk, Hc. simpl.
      rewrite <- (assoc_L (++)). split; [done|]. intros Hr. f_equal. by apply Hlen.
    + exists 1. simpl. by rewrite Hc.
Qed.

End DispatchFacts.

Section DispatchTheorems.
Context `{FmtEngine} `{Backend}.

Lemma emit_each {A} (f : A -> event) (l : list A) (w : World) :
  efor l (fun x => emit (f x)) w =
  ({| formatter_buffers := formatter_buffers w; calls := calls w ++ map f l |}, Returns tt).
Proof.
  revert w; induction l as [|x l IH]; intros w; cbn [efor].
  - unfold eret. simpl. rewrite app_nil_r. by destruct w.
  - unfold ebind, emit, emodify. rewrite IH. simpl. by rewrite <- (assoc_L (++)).
Qed.

Lemma process_calls storage logger_name obtain_active_handlers timestamp_callback w :
  process storage logger_name
    (fun stored_thread_id stored_backtrace_record =>
       backend_process_backtrace_record stored_backtrace_record stored_thread_id
         obtain_active_handlers timestamp_callback) w =
  ({| formatter_buffers := formatter_buffers w;
      calls := calls w ++ backtrace_events storage logger_name |}, Returns tt).
Proof.
  unfold process, backend_process_backtrace_record, ebind at 1. unfold emit at 1, emodify.
  rewrite (emit_each (fun stored => EvBacktraceRecord stored.1 stored.2)). simpl.
  unfold backtrace_events. by rewrite <- (assoc_L (++)).
Qed.

(** [backend_process], once the logger is known: the loop, then the check. *)
Lemma backend_process_unfold registry self storage thread_id obtain_active_handlers
    timestamp_callback logger_details w :
  logger_objects registry !! _logger_details self = Some logger_details ->
  backend_process registry self storage thread_id obtain_active_handlers timestamp_callback w =
  match efor (handlers logger_details)
             (forward_to_handler registry self logger_details thread_id (timestamp_callback self)) w with
  | (w1, Returns _) =>
      if bool_decide (backtrace_flush_level logger_details <= level (LogRecordMetadataT self))%N
      then ({| formatter_buffers := formatter_buffers w1;
               calls := calls w1 ++ backtrace_events storage (name logger_details) |}, Returns tt)
      else (w1, Returns tt)
  | (w1, Throws e) => (w1, Throws e)
  end.
Proof.
  intros Hl. unfold backend_process, deref, ebind at 1. rewrite Hl. unfold eret at 1.
  unfold ebind. destruct (efor _ _ w) as [w1 [[]|e]]; [|done].
  case_bool_decide; [apply process_calls | done].
Qed.


Lemma backtrace_process_not_write registry self logger_details thread_id ts l logger_name :
  EvBacktraceProcess logger_name
    ∉ map (write_event registry self logger_details thread_id ts) l.
Proof. intros Hin. apply list_elem_of_fmap in Hin as (handler & Heq & _). done. Qed.

(** C3, amended.  The backtrace storage is asked to replay if and only if
    the level of the record is at least the backtrace-flush level of the
    logger and the record has been delivered to every handler of the logger:
    a render or a [write] that throws ends the dispatch before the levels
    are compared.  When the record has been delivered to every handler, the
    calls of the dispatch are the [write] calls, followed, for a record at
    or above the flush level, by the call of [process] and by one call per
    stored record, made with the thread id stored with that record. *)
Theorem backtrace_replay_iff_level (registry : Registry) (self : LogRecord)
    (storage : BacktraceRecordStorage) (thread_id : text)
    (obtain_active_handlers : GetHandlersCallbackT)
    (timestamp_callback : LogRecord -> nanoseconds)
    (logger_details : LoggerDetails) (w : World) :
  logger_objects registry !! _logger_details self = Some logger_details ->
  (EvBacktraceProcess (name logger_details)
     ∈ drop (length (calls w))
            (calls (backend_process registry self storage thread_id obtain_active_handlers
                      timestamp_callback w).1)
   <-> (backtrace_flush_level logger_details <= level (LogRecordMetadataT self))%N /\
       Forall (delivers registry self logger_details thread_id (timestamp_callback self))
              (handlers logger_details)) /\
  (Forall (delivers registry self logger_details thread_id (timestamp_callback self))
          (handlers logger_details) ->
   exists w',
     backend_process registry self storage thread_id obtain_active_handlers timestamp_callback w
       = (w', Returns tt) /\
     (EvBacktraceProcess (name logger_details) ∈ drop (length (calls w)) (calls w')
      <-> (backtrace_flush_level logger_details <= level (LogRecordMetadataT self))%N) /\
     calls w' =
       calls w
       ++ map (write_event registry self logger_details thread_id (timestamp_callback self))
              (handlers logger_details)
       ++ (if bool_decide (backtrace_flush_level logger_details <= level (LogRecordMetadataT self))%N
           then EvBacktraceProcess (name logger_details) ::
                map (fun stored => EvBacktraceRecord stored.1 stored.2)
                    (default [] (storage !! name logger_details))
           else [])).
Proof.
  intros Hl. rewrite (backend_process_unfold _ _ _ _ _ _ _ _ Hl).
  assert (Forall (delivers registry self logger_details thread_id (timestamp_callback self))
                 (handlers logger_details) ->
          exists w',
            match efor (handlers logger_details)
                    (forward_to_handler registry self logger_details thread_id
                       (timestamp_callback self)) w with
            | (w1, Returns _) =>
                if bool_decide (backtrace_flush_level logger_details
                                <= level (LogRecordMetadataT self))%N
                then ({| formatter_buffers := formatter_buffers w1;
                         calls := calls w1 ++ backtrace_events storage (name logger_details) |},
                      Returns tt)
                else (w1, Returns tt)
            | (w1, Throws e) => (w1, Throws e)
            end = (w', Returns tt) /\
            (EvBacktraceProcess (name logger_details) ∈ drop (length (calls w)) (calls w')
             <-> (backtrace_flush_level logger_details <= level (LogRecordMetadataT self))%N) /\
            calls w' =
              calls w
              ++ map (write_event registry self logger_details thread_id (timestamp_callback self))
                     (handlers logger_details)
              ++ (if bool_decide (backtrace_flush_level logger_details
                                  <= level (LogRecordMetadataT self))%N
                  then EvBacktraceProcess (name logger_details) ::
                       map (fun stored => EvBacktraceRecord stored.1 stored.2)
                           (default [] (storage !! name logger_details))
                  else [])) as Hdelivered.
  { intros Hd. rewrite (efor_delivers _ _ _ _ _ _ _ Hd).
    case_bool_decide as Hlevel; eexists; (split; [done|]); simpl; rewrite delivered_calls.
    + rewrite <- (assoc_L (++)). split; [|done].
      rewrite drop_app_length. split; [done|]. intros _.
      apply elem_of_app. right. left.
    + rewrite app_nil_r. split; [|done].
      rewrite drop_app_length. split; [|done]. intros Hin.
      by apply backtrace_process_not_write in Hin. }
  split; [|exact Hdelivered]. split.
  - destruct (efor_calls registry self logger_details thread_id (timestamp_callback self)
                (handlers logger_details) w) as (k & Hk & _).
    destruct (efor _ _ w) as [w1 [[]|e]] eqn:Hfor; simpl in Hk.
    + apply efor_returns_inv in Hfor as [Hd _].
      case_bool_decide as Hlevel; [done|]. simpl. rewrite Hk, drop_app_length.
      intros Hin. by apply backtrace_process_not_write in Hin.
    + simpl. rewrite Hk, drop_app_length.
      intros Hin. by apply backtrace_process_not_write in Hin.
  - intros [Hlevel Hd]. destruct (Hdelivered Hd) as (w' & -> & Hiff & _).
    by apply Hiff.
Qed.

(** C6, amended.  A failure while rendering for one handler ends the
    dispatch: the exception leaves [backend_process]; the handlers attached
    before the failing one have each been written once, in order; [write] is
    called neither for the failing handler nor for a handler attached after
    it, and the backtrace storage is not called.  The buffer of a handler
    that is neither the failing one nor attached before it is as it was. *)
Theorem render_failure_ends_dispatch (registry : Registry) (self : LogRecord)
    (storage : BacktraceRecordStorage) (thread_id : text)
    (obtain_active_handlers : GetHandlersCallbackT)
    (timestamp_callback : LogRecord -> nanoseconds)
    (logger_details : LoggerDetails) (w : World)
    (before after : list ptr) (failing : ptr) (h : Handler) (e : exn) :
  logger_objects registry !! _logger_details self = Some logger_details ->
  handlers logger_details = before ++ failing :: after ->
  Forall (delivers registry self logger_details thread_id (timestamp_callback self)) before ->
  handler_objects registry !! failing = Some h ->
  (render_for self logger_details thread_id (timestamp_callback self) h).2 = Throws e ->
  exists w',
    backend_process registry self storage thread_id obtain_active_handlers timestamp_callback w
      = (w', Throws e) /\
    calls w' = calls w ++ map (write_event registry self logger_details thread_id
                                 (timestamp_callback self)) before /\
    (forall handler, handler ∉ before -> handler <> failing ->
       formatter_buffers w' !! handler = formatter_buffers w !! handler).
Proof.
  intros Hl Hh Hb Hf Hr. rewrite (backend_process_unfold _ _ _ _ _ _ _ _ Hl), Hh.
  erewrite efor_throws_at; [| done | by apply (forward_render_throws _ _ _ _ _ _ h)].
  eexists; split; [done|]. simpl. split; [apply delivered_calls|].
  intros handler Hnb Hnf. rewrite lookup_insert_ne by done. by apply delivered_buffers.
Qed.

End DispatchTheorems.

(** ** Rendered text of the parts *)

Section SegmentFacts.
Context `{ResolverTable}.

Lemma generate_tuple_impl_seq {A} (collection : list A) (start n : nat) (tuple : list A) :
  _generate_tuple_impl
    (fun i => match collection !! i with
              | Some x => Returns x
              | None => Throws undefined_behaviour
              end) (seq start n) = Returns tuple ->
  (0 < n -> start + n <= length collection) /\ tuple = take n (drop start collection).
Proof.
  revert start tuple; induction n as [|n IH]; intros start tuple; simpl.
  - intros [= <-]. split; [lia | done].
  - destruct (collection !! start) as [x|] eqn:Hx; simpl; [|done].
    destruct (_generate_tuple_impl _ (seq (S start) n)) as [xs|] eqn:Hxs; simpl; [|done].
    intros [= <-]. apply IH in Hxs as [Hlen ->].
    apply lookup_lt_Some in Hx as Hlt. split.
    + intros _. destruct n; lia.
    + rewrite (drop_S _ _ _ Hx). done.
Qed.

Lemma generate_tuple_take {A} (collection : list A) (N : nat) (tuple : list A) :
  _generate_tuple N
    (fun i => match collection !! i with
              | Some x => Returns x
              | None => Throws undefined_behaviour
              end) = Returns tuple ->
  N <= length collection /\ tuple = take N collection.
Proof.
  intros Hg. apply generate_tuple_impl_seq in Hg as [Hlen ->]. split; [|done].
  destruct N; [lia|]. specialize (Hlen ltac:(lia)). lia.
Qed.

(** What [_make_formatter_helper] returns, when it returns. *)
Lemma make_formatter_helper_inv N part helper :
  _make_formatter_helper N part = Returns helper ->
  exists items callbacks,
    tokenize None part = Returns items /\
    bind_callbacks items = Returns callbacks /\
    ((callbacks = [] /\ helper = None) \/
     (callbacks <> [] /\ N <= length callbacks /\
      helper = Some {| _tuple_of_callbacks := take N callbacks;
                       _fmt_pattern := concat (map template_of_item items) |})).
Proof.
  unfold _make_formatter_helper, _generate_vector_of_callbacks, _generate_fmt_format_string.
  destruct (tokenize None part) as [items|]; [|done]. simpl.
  destruct (bind_callbacks items) as [callbacks|] eqn:Hb; [|done]. simpl.
  case_bool_decide as Hnil; simpl.
  - intros [= <-]. exists items, callbacks. eauto.
  - destruct (_generate_tuple N _) as [tuple|] eqn:Hg; [|done]. simpl.
    apply generate_tuple_take in Hg as [Hlen ->]. intros [= <-].
    exists items, callbacks. split_and!; [done | done |]. right. done.
Qed.

Context (timestamp : nanoseconds) (thread_id logger_name : text).
Context (logline_info : StaticLogRecordInfo).

Local Abbreviation value_of :=
  (fun tuple_arg : argument_callback_t => tuple_arg timestamp thread_id logger_name logline_info).

Lemma brace_format_literal c rest args :
  brace_format (template_of_item (Literal c) ++ rest) args =
  (c :: (brace_format rest args).1, (brace_format rest args).2).
Proof.
  unfold template_of_item.
  destruct (Ascii.eqb c "{") eqn:E1; [|destruct (Ascii.eqb c "}") eqn:E2].
  - apply Ascii.eqb_eq in E1 as ->. cbn. by destruct (brace_format rest args).
  - apply Ascii.eqb_eq in E2 as ->. cbn. by destruct (brace_format rest args).
  - cbn [app brace_format]. rewrite E1, E2. by destruct (brace_format rest args).
Qed.

Lemma brace_format_token name rest arg args :
  brace_format (template_of_item (Token name) ++ rest) (arg :: args) =
  (arg ++ (brace_format rest args).1, (brace_format rest args).2).
Proof. cbn. by destruct (brace_format rest args). Qed.

Lemma brace_format_token_no_arg name rest :
  brace_format (template_of_item (Token name) ++ rest) [] = ([], Throws format_error).
Proof. reflexivity. Qed.

(** With one value per token the template renders as the literal text
    around the values. *)
Lemma brace_format_template items callbacks :
  bind_callbacks items = Returns callbacks ->
  brace_format (concat (map template_of_item items)) (map value_of callbacks)
  = (segment_output timestamp thread_id logger_name logline_info items, Returns tt).
Proof.
  revert callbacks; induction items as [|[c|name] items IH]; intros callbacks Hb.
  - injection Hb as <-. done.
  - cbn [map concat]. rewrite brace_format_literal. cbn [bind_callbacks] in Hb.
    rewrite (IH _ Hb). done.
  - cbn [bind_callbacks] in Hb. unfold segment_output. cbn [map concat item_output].
    destruct (_select_argument_callback name) as [callback|]; [|done].
    destruct (bind_callbacks items) as [callbacks'|]; [|done]. simpl in Hb.
    injection Hb as <-. cbn [map]. rewrite brace_format_token.
    rewrite (IH _ eq_refl). done.
Qed.

(** With fewer values than tokens the engine throws. *)
Lemma brace_format_needs_all items callbacks k :
  bind_callbacks items = Returns callbacks ->
  (brace_format (concat (map template_of_item items)) (map value_of (take k callbacks))).2
    = Returns tt ->
  length callbacks <= k.
Proof.
  revert callbacks k; induction items as [|[c|name] items IH]; intros callbacks k Hb.
  - injection Hb as <-. simpl. lia.
  - cbn [map concat]. rewrite brace_format_literal. cbn [bind_callbacks] in Hb. simpl.
    by apply IH.
  - cbn [bind_callbacks] in Hb. cbn [map concat].
    destruct (_select_argument_callback name) as [callback|]; [|done].
    destruct (bind_callbacks items) as [callbacks'|] eqn:Hb'; [|done]. simpl in Hb.
    injection Hb as <-. destruct k as [|k].
    + rewrite take_0. cbn [map]. by rewrite brace_format_token_no_arg.
    + cbn [take map]. rewrite brace_format_token. simpl. intros Hr.
      apply (IH _ _ eq_refl) in Hr. simpl. lia.
Qed.

(** A part of an accepted pattern, rendered without a throw. *)
Lemma format_part_output N part helper items out :
  _make_formatter_helper N part = Returns helper ->
  tokenize None part = Returns items ->
  @format_part brace_engine helper timestamp thread_id logger_name logline_info []
    = (out, Returns tt) ->
  out = part_output timestamp thread_id logger_name logline_info items.
Proof.
  intros Hm Ht Hf.
  apply make_formatter_helper_inv in Hm as (items' & callbacks & Ht' & Hb & Hcase).
  rewrite Ht in Ht'. injection Ht' as <-.
  pose proof (bind_callbacks_length _ _ Hb) as Hcount. unfold part_output.
  destruct Hcase as [[-> ->]|(Hne & Hlen & ->)].
  - simpl in Hcount. rewrite decide_True by done. by injection Hf.
  - rewrite decide_False by (destruct callbacks; [done | simpl in Hcount; lia]).
    unfold format_part, helper_format in Hf. rewrite format_to_appends in Hf.
    cbn [_fmt_pattern _tuple_of_callbacks fmt_format_to cstr brace_engine] in Hf.
    injection Hf as Hout Hr.
    pose proof (brace_format_needs_all items callbacks N Hb) as Hall.
    assert (length callbacks <= N) as Hge.
    { apply Hall. exact Hr. }
    rewrite take_ge in Hout by done.
    rewrite <- Hout. exact (f_equal fst (brace_format_template items callbacks Hb)).
Qed.

End SegmentFacts.

(** C5, amended.  For every accepted pattern and every render that returns,
    the line is the text of part 1, the message, the text of part 3 and a
    newline, where the text of a part that holds at least one token is its
    literal characters, in their order, around the values of its tokens, and
    the text of a part that holds no token is empty: such a part is skipped
    and its literal characters are not rendered. *)
Theorem literal_text_kept_around_tokens `{ResolverTable} (pattern : text) :
  renders_literal_text true pattern.
Proof.
  intros self fm p1 p3 items1 items3 timestamp thread_id logger_name logline_info args buffer
    out Hset Hsplit Ht1 Ht3 Hf.
  unfold _set_pattern in Hset. rewrite Hsplit in Hset. simpl in Hset.
  destruct (_parse_format_pattern pattern) as [[n1 n3]|]; [|done]. simpl in Hset.
  destruct (_make_formatter_helper n1 p1) as [h1|] eqn:Hm1; [|done]. simpl in Hset.
  destruct (_make_formatter_helper n3 p3) as [h3|] eqn:Hm3; [|done]. simpl in Hset.
  injection Hset as <-.
  unfold format, ebind, emodify in Hf. cbn [_pattern_formatter_helper_part_1
    _pattern_formatter_helper_part_3] in Hf.
  destruct (format_part h1 timestamp thread_id logger_name logline_info [])
    as [out1 [[]|e1]] eqn:Hp1; [|done].
  rewrite format_to_appends in Hf.
  destruct (fmt_format_to (message_format logline_info) args) as [message [[]|e2]] eqn:Hmsg;
    [|done]. simpl in Hf.
  rewrite format_part_appends in Hf.
  destruct (format_part h3 timestamp thread_id logger_name logline_info [])
    as [out3 [[]|e3]] eqn:Hp3; [|done]. simpl in Hf.
  injection Hf as <-. exists message. split; [done|].
  rewrite (format_part_output _ _ _ _ _ _ _ _ _ Hm1 Ht1 Hp1).
  rewrite (format_part_output _ _ _ _ _ _ _ _ _ Hm3 Ht3 Hp3).
  by rewrite <- !(assoc_L (++)).
Qed.

(** ** [LogRecord::clone] *)

Section CloneFacts.
Context `{FmtEngine} `{Backend}.

Lemma copy_LogRecord_eq (other : LogRecord) : copy_LogRecord other = other.
Proof. by destruct other. Qed.

Lemma dispatch_lookup heap record this registry storage thread_id obtain_active_handlers
    timestamp_callback w :
  heap !! record = Some this ->
  dispatch heap record registry storage thread_id obtain_active_handlers timestamp_callback w
  = backend_process registry this storage thread_id obtain_active_handlers timestamp_callback w.
Proof. intros Hl. unfold dispatch, deref, ebind. by rewrite Hl. Qed.

(** C8.  [clone] returns a record at an address of its own, holding the
    argument values and the [LoggerDetails] pointer of the original.  The
    two records share nothing: overwriting or destroying the original leaves
    the clone as it is, and dispatching the clone after the original has
    been destroyed gives, from every world, what dispatching the original
    gives. *)
Theorem clone_is_independent_copy (heap : gmap ptr LogRecord) (self : ptr) (this : LogRecord) :
  heap !! self = Some this ->
  exists p heap',
    clone heap self = Returns (p, heap') /\
    p <> self /\ heap !! p = None /\
    heap' !! self = Some this /\
    (exists copy, heap' !! p = Some copy /\
                  _fmt_args copy = _fmt_args this /\
                  _logger_details copy = _logger_details this /\
                  LogRecordMetadataT copy = LogRecordMetadataT this) /\
    (forall other, <[self := other]> heap' !! p = heap' !! p) /\
    (destroy heap' self !! self = None /\ destroy heap' self !! p = heap' !! p) /\
    (forall registry storage thread_id obtain_active_handlers timestamp_callback w,
       dispatch (destroy heap' self) p registry storage thread_id obtain_active_handlers
                timestamp_callback w
       = dispatch heap self registry storage thread_id obtain_active_handlers
                  timestamp_callback w).
Proof.
  intros Hself. unfold clone. rewrite Hself.
  set (p := fresh (dom heap)).
  assert (heap !! p = None) as Hfresh by (apply not_elem_of_dom, is_fresh).
  assert (p <> self) as Hne by congruence.
  exists p, (<[p := copy_LogRecord this]> heap).
  assert (destroy (<[p := copy_LogRecord this]> heap) self !! p = Some this) as Hclone.
  { unfold destroy. rewrite lookup_delete_ne by done.
    by rewrite lookup_insert_eq, copy_LogRecord_eq. }
  split_and!; try done.
  - by rewrite lookup_insert_ne.
  - exists this. by rewrite lookup_insert_eq, copy_LogRecord_eq.
  - intros other. by rewrite lookup_insert_ne.
  - unfold destroy. apply lookup_delete_eq.
  - unfold destroy. by rewrite lookup_delete_ne.
  - intros. by rewrite (dispatch_lookup _ _ this), (dispatch_lookup _ _ this).
Qed.

End CloneFacts.

(** ** The properties on concrete inputs *)





(** The date format of the object reaches the rendered line: the same
    pattern, compiled for two date formats, renders the same data in two
    ways. *)
Example date_format_reaches_render :
  @format brace_engine
     (clock_formatter "%(ascii_time) [%(thread)] %(message)"
        (with_date_members default_members (lit "%H:%M:%S") MilliSeconds GmtTime))
     3723004000000%Z (lit "t1") (lit "app") info_value [lit "42"] []
  = (lit "01:02:03004 [t1] value=42" ++ ["010"%char], Returns tt) /\
  @format brace_engine
     (clock_formatter "%(ascii_time) [%(thread)] %(message)"
        (with_date_members default_members (lit "%H.%M") NoPrecision GmtTime))
     3723004000000%Z (lit "t1") (lit "app") info_value [lit "42"] []
  = (lit "01.02 [t1] value=42" ++ ["010"%char], Returns tt).
Proof. split; by vm_compute. Qed.

Lemma app_logger_found attached :
  logger_objects (app_registry attached) !! _logger_details record_value
  = Some (app_logger attached).
Proof. reflexivity. Qed.

Lemma console_and_file_deliver (r : LogRecord) :
  r = record_value \/ r = record_error ->
  Forall (delivers (app_registry [1; 2]%positive) r (app_logger [1; 2]%positive) (lit "t1")
                   (record_base r))
         [1; 2]%positive.
Proof.
  intros [-> | ->]; repeat constructor.
  - exists console_handler. by vm_compute.
  - exists file_handler. by vm_compute.
  - exists console_handler. by vm_compute.
  - exists file_handler. by vm_compute.
Qed.


Lemma backtrace_replay_iff_level_witness :
  calls (backend_process (app_registry [1; 2]%positive) record_error app_backtrace
           (lit "t1") tt record_base fresh_world).1
  = [ EvWrite 1%positive (lit "ERROR app - failed: disk" ++ ["010"%char]) 2000%Z;
      EvWrite 2%positive (lit "[t1] failed: disk (main.cpp:21)" ++ ["010"%char]) 2000%Z;
      EvBacktraceProcess (lit "app");
      EvBacktraceRecord (lit "t7") 11%positive;
      EvBacktraceRecord (lit "t8") 12%positive ].
Proof.
  destruct (backtrace_replay_iff_level (app_registry [1; 2]%positive) record_error app_backtrace
              (lit "t1") tt record_base (app_logger [1; 2]%positive) fresh_world
              (app_logger_found _)) as [_ Hreplay].
  destruct (Hreplay (console_and_file_deliver record_error (or_intror eq_refl)))
    as (w' & Hrun & _ & Hcalls).
  rewrite Hrun. cbn [fst]. rewrite Hcalls. vm_compute. reflexivity.
Defined.

(** A record below the flush level: the handlers are written, the storage
    is not called. *)
Example no_replay_below_flush_level :
  calls (backend_process (app_registry [1; 2]%positive) record_value app_backtrace
           (lit "t1") tt record_base fresh_world).1
  = [ EvWrite 1%positive (lit "INFO app - value=42" ++ ["010"%char]) 1000%Z;
      EvWrite 2%positive (lit "[t1] value=42 (main.cpp:12)" ++ ["010"%char]) 1000%Z ].
Proof. vm_compute. reflexivity. Qed.

(** C3, as stated, fails.  The record has the level of the flush level of
    its logger, whose handlers are 1 and 4.  Handler 1 is written; the
    [write] of handler 4 throws, the exception leaves the dispatch, and the
    backtrace storage is not called. *)
Lemma failed_delivery_prevents_replay :
  ~ replays_iff_flush_level (disk_registry [1; 4]%positive) record_error app_backtrace
      (lit "t1") tt record_base fresh_world /\
  (backtrace_flush_level (app_logger [1; 4]%positive)
   <= level (LogRecordMetadataT record_error))%N /\
  backend_process (disk_registry [1; 4]%positive) record_error app_backtrace
    (lit "t1") tt record_base fresh_world
  = ({| formatter_buffers :=
          {[ 1%positive := lit "ERROR app - failed: disk" ++ ["010"%char];
             4%positive := lit "[t1] failed: disk" ++ ["010"%char] ]};
        calls := [ EvWrite 1%positive (lit "ERROR app - failed: disk" ++ ["010"%char]) 2000%Z;
                   EvWrite 4%positive (lit "[t1] failed: disk" ++ ["010"%char]) 2000%Z ] |},
     Throws handler_error).
Proof.
  split_and!.
  - intros Hc. specialize (Hc (app_logger [1; 4]%positive) eq_refl).
    assert (backtrace_flush_level (app_logger [1; 4]%positive)
            <= level (LogRecordMetadataT record_error))%N as Hlevel by (by vm_compute).
    apply Hc in Hlevel. vm_compute in Hlevel.
    apply elem_of_cons in Hlevel as [Heq|Hin]; [discriminate|].
    apply elem_of_cons in Hin as [Heq|Hin]; [discriminate|].
    by apply elem_of_nil in Hin.
  - by vm_compute.
  - by vm_compute.
Qed.


(** C6, as stated, fails.  The logger has the handlers 3 and 2, in this
    order.  The pattern of handler 3 is accepted by [_set_pattern], and
    rendering with it throws; rendering for handler 2 would return.  The
    dispatch ends with the exception of handler 3, and [write] of handler 2
    is never called. *)
Lemma render_failure_stops_delivery :
  ~ delivers_independently (app_registry [3; 2]%positive) record_value app_backtrace
      (lit "t1") tt record_base fresh_world /\
  (exists fm, _set_pattern (lit "%%(message) %(thread)") default_members = Returns fm /\
              formatter skewed_handler = fm) /\
  (backend_process (app_registry [3; 2]%positive) record_value app_backtrace
     (lit "t1") tt record_base fresh_world).2 = Throws format_error /\
  calls (backend_process (app_registry [3; 2]%positive) record_value app_backtrace
           (lit "t1") tt record_base fresh_world).1 = [].
Proof.
  split_and!.
  - intros Hd.
    specialize (Hd (app_logger [3; 2]%positive) 2%positive file_handler eq_refl).
    assert (2%positive ∈ @nil ptr) as Hin; [|by apply elem_of_nil in Hin].
    apply Hd; [set_solver | reflexivity | by vm_compute].
  - eexists. split; [by vm_compute | by vm_compute].
  - by vm_compute.
  - by vm_compute.
Qed.

Lemma render_failure_ends_dispatch_witness :
  exists w',
    backend_process (app_registry [1; 3; 2]%positive) record_value app_backtrace
      (lit "t1") tt record_base fresh_world = (w', Throws format_error) /\
    calls w' = [ EvWrite 1%positive (lit "INFO app - value=42" ++ ["010"%char]) 1000%Z ] /\
    formatter_buffers w' !! 2%positive = None.
Proof.
  destruct (render_failure_ends_dispatch (app_registry [1; 3; 2]%positive) record_value
              app_backtrace (lit "t1") tt record_base (app_logger [1; 3; 2]%positive)
              fresh_world [1%positive] [2%positive] 3%positive skewed_handler format_error)
    as (w' & Hrun & Hcalls & Hbuf).
  - reflexivity.
  - reflexivity.
  - repeat constructor. exists console_handler. by vm_compute.
  - reflexivity.
  - by vm_compute.
  - exists w'. split_and!; [exact Hrun | rewrite Hcalls; by vm_compute |].
    rewrite Hbuf; [reflexivity | by intros ?%list_elem_of_singleton | discriminate].
Defined.

Lemma clone_is_independent_copy_witness :
  exists p heap',
    clone ({[ 5%positive := record_value ]} : gmap ptr LogRecord) 5%positive = Returns (p, heap') /\
    p <> 5%positive /\
    forall w,
      dispatch (destroy heap' 5%positive) p (app_registry [1; 2]%positive) app_backtrace
               (lit "t1") tt record_base w
      = dispatch {[ 5%positive := record_value ]} 5%positive (app_registry [1; 2]%positive)
                 app_backtrace (lit "t1") tt record_base w.
Proof.
  destruct (clone_is_independent_copy {[ 5%positive := record_value ]} 5%positive record_value)
    as (p & heap' & Hclone & Hne & _ & _ & _ & _ & _ & Hdispatch).
  - reflexivity.
  - exists p, heap'. split_and!; [exact Hclone | exact Hne |]. intros w. apply Hdispatch.
Defined.

(** C5, as stated, fails.  Part 1 of [LOG: %(message)] is literal text
    without a token; no helper is made for it, and the rendered line is
    [value=42] and a newline: the characters of [LOG: ] are not in it. *)
Lemma literal_text_without_token_is_dropped :
  ~ renders_literal_text false (lit "LOG: %(message)") /\
  @format brace_engine (formatter_of "LOG: %(message)") 0%Z (lit "t1") (lit "app") info_value [lit "42"] []
  = (lit "value=42" ++ ["010"%char], Returns tt).
Proof.
  split; [|by vm_compute]. intros Hc.
  destruct (Hc default_members (formatter_of "LOG: %(message)") (lit "LOG: ") []
              (map Literal (lit "LOG: ")) [] 0%Z (lit "t1") (lit "app") info_value [lit "42"] []
              (lit "value=42" ++ ["010"%char]))
    as (message & Hm & Hout); [by vm_compute .. |].
  vm_compute in Hm. injection Hm as <-. vm_compute in Hout. discriminate.
Qed.

Lemma literal_text_kept_around_tokens_witness :
  exists message,
    brace_format (lit "value={}") [lit "42"] = (message, Returns tt) /\
    lit "[t1] value=42 {main.cpp:12}" ++ ["010"%char]
    = part_output 0%Z (lit "t1") (lit "app") info_value
        [Literal "["%char; Token (lit "thread"); Literal "]"%char; Literal " "%char]
      ++ message
      ++ part_output 0%Z (lit "t1") (lit "app") info_value
           [Literal " "%char; Literal "{"%char; Token (lit "filename"); Literal ":"%char;
            Token (lit "lineno"); Literal "}"%char]
      ++ ["010"%char].
Proof.
  apply (literal_text_kept_around_tokens (lit "[%(thread)] %(message) {%(filename):%(lineno)}")
           default_members (formatter_of "[%(thread)] %(message) {%(filename):%(lineno)}")
           (lit "[%(thread)] ") (lit " {%(filename):%(lineno)}")
           _ _ 0%Z (lit "t1") (lit "app") info_value [lit "42"] []); by vm_compute.
Defined.

(** The examples of the header and of section 8 of the spec. *)

Example parse_default :
  _parse_format_pattern
    (lit "%(ascii_time) [%(thread)] %(filename):%(lineno) LOG_%(level_name) %(logger_name) - %(message)")
  = Some (6, 0).
Proof. vm_compute. reflexivity. Qed.

(** A later [%(message)] is counted like any other token of part 3. *)
Example parse_second_message :
  _parse_format_pattern (lit "[%(thread)] %(message) | %(message) again") = Some (1, 1).
Proof. vm_compute. reflexivity. Qed.

(** The chain of comparisons steps over the character it stops at: the
    second ['%'] is never looked at, and [%(message)] is not found. *)
Example parse_double_percent :
  _parse_format_pattern (lit "%%(message) %(thread)") = Some (2, 0).
Proof. vm_compute. reflexivity. Qed.

Example empty_pattern_rejected self :
  _set_pattern [] self = Throws MissingPlaceholder /\ _parse_format_pattern [] = None.
Proof. split; reflexivity. Qed.

(** A stray ['%'] next to a token makes the counter of part 1 larger than
    the number of its callbacks; [_generate_tuple] then reads the vector of
    callbacks past its end. *)
Example stray_percent_reads_past_end :
  _set_pattern (lit "50% %(thread) %(message)") default_members = Throws undefined_behaviour.
Proof. vm_compute. reflexivity. Qed.

(** * Further properties of the two headers *)

(** ** The scan of [_parse_format_pattern] *)

Lemma c_at_lookup (pattern : text) (pos : nat) :
  pos < length pattern -> pattern !! pos = Some (c_at pattern pos).
Proof.
  intros Hlt. destruct (lookup_lt_is_Some_2 pattern pos Hlt) as [c Hc].
  rewrite Hc. f_equal. symmetry. by apply nth_lookup_Some.
Qed.

Lemma scanned_lookup (pattern : text) (pos : nat) :
  pos < length pattern - 1 -> scanned pattern !! pos = Some (c_at pattern pos).
Proof.
  intros Hlt. unfold scanned. rewrite lookup_take_lt by done. apply c_at_lookup. lia.
Qed.

Lemma scanned_drop_end (pattern : text) (pos : nat) :
  length pattern - 1 <= pos -> drop pos (scanned pattern) = [].
Proof. intros Hle. apply drop_ge. unfold scanned. rewrite length_take. lia. Qed.

Lemma count_percent_app (s t : text) :
  count_percent (s ++ t) = count_percent s + count_percent t.
Proof. induction s as [|c s IH]; simpl; [done|]. rewrite IH. lia. Qed.

Lemma count_percent_drop_le (s : text) (j k : nat) :
  j <= k -> count_percent (drop k s) <= count_percent (drop j s).
Proof.
  intros Hle. replace k with (j + (k - j)) by lia. rewrite <- drop_drop.
  rewrite <- (take_drop (k - j) (drop j s)) at 2. rewrite count_percent_app. lia.
Qed.

Lemma count_percent_none (s : text) :
  Forall (fun c => c <> "%"%char) s -> count_percent s = 0.
Proof.
  induction 1 as [|c s Hc _ IH]; simpl; [done|].
  apply Ascii.eqb_neq in Hc. by rewrite Hc, IH.
Qed.

Lemma count_percent_scanned_step (pattern : text) (pos : nat) :
  pos < length pattern - 1 ->
  count_percent (drop pos (scanned pattern)) =
  (if Ascii.eqb (c_at pattern pos) "%"%char then 1 else 0)
  + count_percent (drop (S pos) (scanned pattern)).
Proof.
  intros Hlt. by rewrite (drop_S _ _ _ (scanned_lookup _ _ Hlt)).
Qed.

(** The invariant of the loop: the counters only grow, and they grow by at
    most the number of ['%'] the loop can still stand on. *)
Lemma parse_loop_bounds fuel pattern pos found c1 c3 n1 n3 :
  parse_loop fuel pattern pos found c1 c3 = Some (n1, n3) ->
  c1 <= n1 /\ c3 <= n3 /\
  n1 + n3 <= c1 + c3 + count_percent (drop pos (scanned pattern)).
Proof.
  revert pos found c1 c3; induction fuel as [|fuel IH]; intros pos found c1 c3; [done|].
  rewrite parse_loop_S. case_decide as Hlt; [|intros [= <- <-]; lia].
  rewrite (count_percent_scanned_step _ _ Hlt).
  destruct (Ascii.eqb (c_at pattern pos) "%") eqn:Hc.
  - destruct found; cbn [negb].
    + intros Hp. apply IH in Hp. lia.
    + pose proof (match_chain_advances pattern (lit "(message)") pos) as Hadv.
      destruct (match_chain pattern pos (lit "(message)")) as [pos' matched].
      simpl in Hadv.
      pose proof (count_percent_drop_le (scanned pattern) (S pos) (S pos') ltac:(lia)).
      destruct matched; intros Hp; apply IH in Hp; lia.
  - intros Hp. apply IH in Hp. lia.
Qed.

(** X1.  The scan terminates for every pattern but the empty one: a
    non-empty pattern always has its two counters, after at most as many
    iterations as it has characters; the empty pattern, for which [len - 1]
    wraps around, has none. *)
Theorem parse_has_value_iff_nonempty (pattern : text) :
  is_Some (_parse_format_pattern pattern) <-> pattern <> [].
Proof.
  split.
  - intros [r Hr] ->. discriminate.
  - apply parse_defined.
Qed.

(** X2.  The two counters together never exceed the number of ['%']
    characters of the pattern, its last character left aside; a pattern
    without ['%'] has the counters 0 and 0. *)
Theorem parse_counts_bounded (pattern : text) (n1 n3 : nat) :
  _parse_format_pattern pattern = Some (n1, n3) ->
  n1 + n3 <= count_percent (removelast pattern) /\
  n1 + n3 <= count_percent pattern /\
  (Forall (fun c => c <> "%"%char) pattern -> n1 = 0 /\ n3 = 0).
Proof.
  intros Hp. destruct pattern as [|c pattern]; [done|].
  unfold _parse_format_pattern in Hp. apply parse_loop_bounds in Hp as (_ & _ & Hb).
  rewrite drop_0 in Hb. simpl in Hb.
  assert (scanned (c :: pattern) = removelast (c :: pattern)) as Hs.
  { unfold scanned. rewrite removelast_firstn_len. f_equal. simpl. lia. }
  rewrite Hs in Hb.
  assert (count_percent (removelast (c :: pattern)) <= count_percent (c :: pattern)) as Hle.
  { rewrite (app_removelast_last (l:=c :: pattern) "000"%char) at 2 by done.
    rewrite count_percent_app. lia. }
  split_and!; [lia | lia |].
  intros Hnone. apply count_percent_none in Hnone. lia.
Qed.

Lemma parse_counts_bounded_witness :
  2 + 0 <= count_percent (removelast (lit "%%(message) %(thread)%")) /\
  2 + 0 <= count_percent (lit "%%(message) %(thread)%") /\
  (Forall (fun c => c <> "%"%char) (lit "%%(message) %(thread)%") -> 2 = 0 /\ 0 = 0).
Proof.
  apply (parse_counts_bounded (lit "%%(message) %(thread)%") 2 0).
  vm_compute. reflexivity.
Defined.

(** Once the message has been found, every ['%'] the loop stands on is
    counted for part 3. *)
Lemma parse_from_after_found (pattern : text) (n pos c1 c3 : nat) :
  length pattern - 1 - pos <= n ->
  parse_from pattern pos true c1 c3
    (c1, c3 + count_percent (drop pos (scanned pattern))).
Proof.
  revert pos c3; induction n as [|n IH]; intros pos c3 Hn.
  - rewrite scanned_drop_end by lia. simpl. rewrite Nat.add_0_r.
    apply parse_from_end. lia.
  - destruct (decide (pos < length pattern - 1)) as [Hlt|Hge].
    + rewrite (count_percent_scanned_step _ _ Hlt).
      destruct (Ascii.eqb (c_at pattern pos) "%") eqn:Hc.
      * apply parse_from_percent_after; [done | by apply Ascii.eqb_eq |].
        replace (c3 + (1 + count_percent (drop (S pos) (scanned pattern))))
          with (S c3 + count_percent (drop (S pos) (scanned pattern))) by lia.
        apply IH. lia.
      * apply (parse_from_skip _ pos (S pos)); [lia | |].
        -- intros i Hi. assert (i = pos) as -> by lia. by apply Ascii.eqb_neq.
        -- simpl. apply IH. lia.
    + rewrite scanned_drop_end by lia. simpl. rewrite Nat.add_0_r.
      apply parse_from_end. lia.
Qed.

Lemma scanned_after_prefix (before post : text) :
  before <> [] -> drop (length before) (scanned (before ++ post)) = removelast post.
Proof.
  intros Hne. unfold scanned. rewrite length_app.
  destruct post as [|c post].
  - simpl. rewrite app_nil_r. apply drop_ge. rewrite length_take. lia.
  - rewrite removelast_firstn_len.
    replace (length before + length (c :: post) - 1)
      with (length before + pred (length (c :: post))) by (simpl; lia).
    rewrite take_app_add, drop_app_length. done.
Qed.

(** X3.  After [%(message)] has been located, every ['%'] of the rest of
    the pattern adds one to the counter of part 3, whether or not it starts
    a token; only a ['%'] in the very last position is left out.  Before the
    message, in a part whose every ['%'] starts a token, the counter of part
    1 is the number of tokens. *)
Theorem parse_counts_every_percent_of_part_3 (items1 : list segment_item) (post : text) :
  Forall plain_item items1 -> Token (lit "message") ∉ items1 ->
  _parse_format_pattern (items_text items1 ++ message_token ++ post)
  = Some (count_tokens items1, count_percent (removelast post)).
Proof.
  intros H1 Hmsg. apply parse_from_result.
  { intros Heq. apply (f_equal length) in Heq. rewrite !length_app in Heq. simpl in Heq. lia. }
  apply (parse_from_items_before items1 H1 Hmsg [] _ 0 0).
  change (items_text items1 ++ message_token ++ post)
    with ([] ++ items_text items1 ++ message_token ++ post).
  rewrite (assoc_L (++) []), <- (length_app []).
  apply parse_from_message.
  rewrite <- length_app.
  assert (parse_from (([] ++ items_text items1) ++ message_token ++ post)
            (length (([] ++ items_text items1) ++ message_token)) true
            (0 + count_tokens items1) 0
            (0 + count_tokens items1,
             0 + count_percent
                   (drop (length (([] ++ items_text items1) ++ message_token))
                         (scanned (([] ++ items_text items1) ++ message_token ++ post)))))
    as Hp.
  { apply (parse_from_after_found _
             (length (([] ++ items_text items1) ++ message_token ++ post))). lia. }
  rewrite (assoc_L (++) ([] ++ items_text items1) message_token post) in Hp at 2.
  rewrite scanned_after_prefix in Hp; [exact Hp|].
  intros Heq. apply (f_equal length) in Heq. rewrite !length_app in Heq. simpl in Heq. lia.
Qed.

Lemma parse_counts_every_percent_of_part_3_witness :
  _parse_format_pattern (lit "[%(thread)] %(message) 100% of %(lineno) %% %") = Some (1, 4).
Proof.
  apply (parse_counts_every_percent_of_part_3
           [Literal "["%char; Token (lit "thread"); Literal "]"%char; Literal " "%char]
           (lit " 100% of %(lineno) %% %")).
  - apply (bool_decide_unpack _). vm_compute. exact I.
  - apply (bool_decide_unpack _). vm_compute. exact I.
Defined.

(** The chain of comparisons succeeds only on the expected characters. *)
Lemma match_chain_true_occurs (pattern expected : text) (pos pos' : nat) :
  "000"%char ∉ expected ->
  match_chain pattern pos expected = (pos', true) ->
  expected `prefix_of` drop (S pos) pattern.
Proof.
  revert pos; induction expected as [|e expected IH]; intros pos Hnul; [intros _; apply prefix_nil|].
  cbn [match_chain]. destruct (Ascii.eqb (c_at pattern (S pos)) e) eqn:He; [|done].
  apply Ascii.eqb_eq in He. intros Hm.
  assert (S pos < length pattern) as Hlt.
  { destruct (decide (S pos < length pattern)) as [|Hge]; [done|]. exfalso.
    unfold c_at in He. rewrite nth_overflow in He by lia. apply Hnul. rewrite <- He. left. }
  rewrite (drop_S _ _ _ (c_at_lookup _ _ Hlt)), He.
  apply prefix_cons. apply IH; [|done]. intros Hin. apply Hnul. by right.
Qed.

(** As long as [%(message)] does not occur at or after the position of the
    loop, the loop does not find it, and the counter of part 3 stays. *)
Lemma parse_loop_not_found fuel pattern pos c1 c3 n1 n3 :
  (forall i, pos <= i -> ~ message_token `prefix_of` drop i pattern) ->
  parse_loop fuel pattern pos false c1 c3 = Some (n1, n3) -> n3 = c3.
Proof.
  revert pos c1; induction fuel as [|fuel IH]; intros pos c1 Hno; [done|].
  rewrite parse_loop_S. case_decide as Hlt; [|by intros [= <- <-]].
  destruct (Ascii.eqb (c_at pattern pos) "%") eqn:Hc; cbn [negb].
  - pose proof (match_chain_advances pattern (lit "(message)") pos) as Hadv.
    destruct (match_chain pattern pos (lit "(message)")) as [pos' matched] eqn:Hm.
    simpl in Hadv. destruct matched.
    + exfalso. apply (Hno pos); [lia|].
      apply match_chain_true_occurs in Hm;
        [|apply (bool_decide_unpack _); by vm_compute].
      assert (pos < length pattern) as Hlt' by lia.
      rewrite (drop_S _ _ _ (c_at_lookup _ _ Hlt')).
      apply Ascii.eqb_eq in Hc. rewrite Hc.
      change message_token with ("%"%char :: lit "(message)"). by apply prefix_cons.
    + apply IH. intros i Hi. apply Hno. lia.
  - apply IH. intros i Hi. apply Hno. lia.
Qed.

Lemma absent_no_prefix (pattern : text) :
  (forall pre post, pattern <> pre ++ message_token ++ post) ->
  forall i, ~ message_token `prefix_of` drop i pattern.
Proof.
  intros Hn i [k Hk]. apply (Hn (take i pattern) k).
  rewrite <- Hk. by rewrite take_drop.
Qed.

(** X4.  The scan and the runtime check agree on a missing token: in a
    pattern in which [%(message)] does not occur, which [_set_pattern]
    rejects, the scan never finds the message, and every ['%'] it counts is
    counted for part 1: the counter of part 3 is 0. *)
Theorem parse_part_3_empty_without_message (pattern : text) (n1 n3 : nat) :
  (forall pre post, pattern <> pre ++ message_token ++ post) ->
  _parse_format_pattern pattern = Some (n1, n3) ->
  n3 = 0 /\ split_pattern pattern = Throws MissingPlaceholder.
Proof.
  intros Hn Hp. split; [|by apply split_pattern_absent].
  destruct pattern as [|c pattern]; [done|]. unfold _parse_format_pattern in Hp.
  eapply parse_loop_not_found; [|exact Hp].
  intros i _. by apply absent_no_prefix.
Qed.

Lemma parse_part_3_empty_without_message_witness :
  0 = 0 /\ split_pattern (lit "%(thread) 100% [%(lineno)]") = Throws MissingPlaceholder.
Proof.
  apply (parse_part_3_empty_without_message (lit "%(thread) 100% [%(lineno)]") 3 0).
  - apply find_None_absent. vm_compute. reflexivity.
  - vm_compute. reflexivity.
Defined.

Lemma prefix_c_at (pattern rest : text) (c : ascii) (i : nat) :
  (c :: rest) `prefix_of` drop i pattern -> c_at pattern i = c.
Proof.
  intros [k Hk]. unfold c_at. apply nth_lookup_Some.
  rewrite <- (Nat.add_0_r i), <- lookup_drop, Hk. done.
Qed.

(** X5.  A ['%'] placed directly before the only [%(message)] of a pattern
    hides the token from the scan, though not from the runtime check: the
    chain of comparisons started at the first ['%'] stops on the second one
    and the loop steps over it.  For a text [pre] without ['%'] and a text
    [post] in which [%(message)] does not occur, [_set_pattern] cuts the
    pattern [pre ++ "%" ++ "%(message)" ++ post] at the token, but the
    counter of part 3 is 0, whatever other tokens [post] holds, and the
    stray ['%'] is counted for part 1. *)
Theorem parse_misses_message_after_percent (pre post : text) :
  Forall (fun c => c <> "%"%char) pre ->
  (forall a b, post <> a ++ message_token ++ b) ->
  split_pattern (pre ++ "%"%char :: message_token ++ post)
    = Returns (pre ++ ["%"%char], post) /\
  exists n1,
    _parse_format_pattern (pre ++ "%"%char :: message_token ++ post) = Some (S n1, 0).
Proof.
  intros Hpre Hpost. set (pattern := pre ++ "%"%char :: message_token ++ post).
  assert (length pattern = length pre + 11 + length post) as Hlen.
  { unfold pattern. rewrite length_app. simpl. lia. }
  split.
  - assert (find pattern message_token = Some (length pre + 1)) as Hfind.
    { unfold pattern. rewrite find_skip by done.
      assert (find ("%"%char :: message_token ++ post) message_token = Some 1) as ->; [|done].
      cbn [find].
      assert (starts_with message_token ("%"%char :: message_token ++ post) = false) as ->
        by reflexivity.
      assert (find (message_token ++ post) message_token = Some 0) as ->; [|done].
      apply (find_first_occurrence _ _ [] post); [done | simpl; lia]. }
    rewrite (split_pattern_found _ _ Hfind). unfold pattern. f_equal. f_equal.
    + rewrite (cons_middle "%"%char), (assoc_L (++) pre).
      replace (length pre + 1) with (length (pre ++ ["%"%char]))
        by (rewrite length_app; simpl; lia).
      by rewrite take_app_length.
    + rewrite (cons_middle "%"%char), !(assoc_L (++)).
      replace (length pre + 1 + length message_token)
        with (length ((pre ++ ["%"%char]) ++ message_token))
        by (rewrite !length_app; simpl; lia).
      by rewrite drop_app_length.
  - destruct (parse_loop_fuel (length pattern) pattern (length pre + 2) false 1 0)
      as [[n1 n3] Hr]; [lia | lia |].
    pose proof (parse_loop_bounds _ _ _ _ _ _ _ _ Hr) as (Hn1 & _ & _).
    assert (n3 = 0) as ->.
    { eapply parse_loop_not_found; [|exact Hr]. intros i Hi Hocc.
      destruct (decide (i < length pre + 11)) as [Hin|Hout].
      - apply prefix_c_at in Hocc.
        assert (c_at pattern i <> "%"%char); [|done].
        unfold pattern.
        change (pre ++ "%"%char :: message_token ++ post)
          with (pre ++ ["%"%char; "%"%char] ++ lit "(message)" ++ post).
        rewrite (assoc_L (++) pre). apply c_at_no_percent.
        + apply (bool_decide_unpack _). by vm_compute.
        + rewrite length_app. simpl. lia.
      - destruct Hocc as [k Hk]. unfold pattern in Hk.
        change (pre ++ "%"%char :: message_token ++ post)
          with (pre ++ ("%"%char :: message_token) ++ post) in Hk.
        rewrite (assoc_L (++) pre) in Hk. rewrite drop_app_ge in Hk
          by (rewrite length_app; simpl; lia).
        apply (Hpost (take (i - length (pre ++ "%"%char :: message_token)) post) k).
        rewrite <- Hk. by rewrite take_drop. }
    destruct n1 as [|n1]; [lia|]. exists n1. apply parse_from_result.
    { intros Heq. rewrite Heq in Hlen. simpl in Hlen. lia. }
    apply (parse_from_skip _ 0 (length pre)); [lia | |].
    { intros i Hi. unfold pattern.
      change (pre ++ ?t) with ([] ++ pre ++ t). apply c_at_no_percent; [done | simpl; lia]. }
    apply (parse_from_percent_before _ _ (length pre + 1) false); [lia | | |].
    + unfold pattern. rewrite <- (Nat.add_0_r (length pre)), c_at_app_r. done.
    + change (lit "(message)") with ("("%char :: lit "message)"). cbn [match_chain].
      assert (c_at pattern (S (length pre)) = "%"%char) as ->.
      { unfold pattern. replace (S (length pre)) with (length pre + 1) by lia.
        rewrite c_at_app_r. done. }
      replace (S (length pre)) with (length pre + 1) by lia. done.
    + replace (S (length pre + 1)) with (length pre + 2) by lia. by exists (length pattern).
Qed.

(** When [%(message)] occurs again in the text after the hidden token, the
    scan finds that occurrence, and counts from there. *)
Example parse_finds_message_after_hidden_one :
  _parse_format_pattern (lit "100%%(message) %(message) %(thread)") = Some (1, 1).
Proof. vm_compute. reflexivity. Qed.

Lemma parse_misses_message_after_percent_witness :
  split_pattern (lit "100%%(message) [%(thread)]") = Returns (lit "100%", lit " [%(thread)]") /\
  exists n1, _parse_format_pattern (lit "100%%(message) [%(thread)]") = Some (S n1, 0).
Proof.
  apply (parse_misses_message_after_percent (lit "100") (lit " [%(thread)]")).
  - apply (bool_decide_unpack _). vm_compute. exact I.
  - apply find_None_absent. vm_compute. reflexivity.
Defined.

(** ** The cut and the helpers of [_set_pattern] *)

(** X6.  Whenever the cut of [_set_pattern] returns, the pattern is part 1,
    then [%(message)], then part 3, and no occurrence of the token starts
    before the end of part 1; in particular the token does not occur in
    part 1.  The cut throws nothing but the runtime error for the missing
    token, and only for a pattern without the token: the two [substr] calls
    are always in range. *)
Theorem split_pattern_reassembles (pattern : text) :
  (forall part_1 part_3,
     split_pattern pattern = Returns (part_1, part_3) ->
     pattern = part_1 ++ message_token ++ part_3 /\
     (forall a b, pattern = a ++ message_token ++ b -> length part_1 <= length a) /\
     (forall a b, part_1 <> a ++ message_token ++ b)) /\
  (forall e,
     split_pattern pattern = Throws e ->
     e = MissingPlaceholder /\ forall a b, pattern <> a ++ message_token ++ b).
Proof.
  unfold split_pattern. destruct (find pattern message_token) as [i|] eqn:Hfind.
  - destruct (find_Some_occurs _ _ _ Hfind) as [Hocc Hle].
    pose proof (find_Some_first _ _ _ Hfind) as Hfirst.
    unfold substr, substr_from. rewrite !decide_True by lia. cbn [obind]. split; [|done].
    intros part_1 part_3 [= <- <-]. rewrite drop_0.
    assert (length (take i pattern) = i) as Hlen by (rewrite length_take; lia).
    split_and!.
    + exact Hocc.
    + intros a b Hd. rewrite Hlen. by eapply Hfirst.
    + intros a b Hd.
      assert (i <= length a) as Hia.
      { apply (Hfirst a (b ++ message_token ++ drop (i + length message_token) pattern)).
        rewrite Hocc at 1. rewrite Hd. by rewrite <- !(assoc_L (++)). }
      apply (f_equal length) in Hd. rewrite Hlen, !length_app in Hd.
      change (length message_token) with 10 in Hd. lia.
  - split; [done|]. intros e [= <-]. split; [done|]. by apply find_None_absent.
Qed.

Lemma split_pattern_reassembles_witness :
  lit "[%(thread)] %(message) | %(message) again"
  = lit "[%(thread)] " ++ message_token ++ lit " | %(message) again" /\
  (forall a b, lit "[%(thread)] %(message) | %(message) again" = a ++ message_token ++ b ->
               length (lit "[%(thread)] ") <= length a) /\
  (forall a b, lit "[%(thread)] " <> a ++ message_token ++ b).
Proof.
  apply (proj1 (split_pattern_reassembles (lit "[%(thread)] %(message) | %(message) again"))).
  vm_compute. reflexivity.
Defined.

Section HelperFacts.
Context `{ResolverTable}.

Lemma generate_tuple_impl_in_range {A} (collection : list A) (start n : nat) :
  start + n <= length collection ->
  _generate_tuple_impl
    (fun i => match collection !! i with
              | Some x => Returns x
              | None => Throws undefined_behaviour
              end) (seq start n) = Returns (take n (drop start collection)).
Proof.
  revert start; induction n as [|n IH]; intros start Hle; simpl; [done|].
  assert (start < length collection) as Hlt by lia.
  destruct (lookup_lt_is_Some_2 collection start Hlt) as [x Hx].
  rewrite Hx. simpl. rewrite IH by lia. simpl. by rewrite (drop_S _ _ _ Hx).
Qed.

Lemma generate_tuple_impl_past_end {A} (collection : list A) (start n : nat) :
  start <= length collection -> length collection < start + n ->
  _generate_tuple_impl
    (fun i => match collection !! i with
              | Some x => Returns x
              | None => Throws undefined_behaviour
              end) (seq start n) = Throws undefined_behaviour.
Proof.
  revert start; induction n as [|n IH]; intros start Hle Hlt; simpl; [lia|].
  destruct (collection !! start) as [x|] eqn:Hx; simpl; [|done].
  apply lookup_lt_Some in Hx. rewrite IH by lia. done.
Qed.

Lemma make_formatter_helper_no_callbacks (N : nat) (format_pattern_part : text) :
  _generate_vector_of_callbacks format_pattern_part = Returns [] ->
  _make_formatter_helper N format_pattern_part = Returns None.
Proof. unfold _make_formatter_helper. intros ->. done. Qed.

(** X7.  [_make_formatter_helper<N>] looks at the callbacks of its part
    only.  When there is none it returns no helper, whatever text the part
    holds.  When there are some, it builds the tuple from the first [N] of
    them, in their order; when [N] is larger than their number it reads the
    vector past its end.  An exception of the callback generation leaves
    the function as it is. *)
Theorem make_formatter_helper_cases (N : nat) (format_pattern_part : text) :
  (forall e, _generate_vector_of_callbacks format_pattern_part = Throws e ->
             _make_formatter_helper N format_pattern_part = Throws e) /\
  (_generate_vector_of_callbacks format_pattern_part = Returns [] ->
   _make_formatter_helper N format_pattern_part = Returns None) /\
  (forall callbacks,
     _generate_vector_of_callbacks format_pattern_part = Returns callbacks ->
     callbacks <> [] ->
     (length callbacks < N ->
      _make_formatter_helper N format_pattern_part = Throws undefined_behaviour) /\
     (N <= length callbacks ->
      forall fmt_format,
        _generate_fmt_format_string format_pattern_part = Returns fmt_format ->
        _make_formatter_helper N format_pattern_part
        = Returns (Some {| _tuple_of_callbacks := take N callbacks;
                           _fmt_pattern := fmt_format |}))).
Proof.
  unfold _make_formatter_helper. split_and!.
  - intros e ->. done.
  - intros ->. done.
  - intros callbacks -> Hne. cbn [obind]. rewrite bool_decide_eq_false_2 by done.
    cbn [negb]. split.
    + intros Hlt. unfold _generate_tuple.
      rewrite generate_tuple_impl_past_end by (simpl; lia). done.
    + intros Hle fmt_format Hf. unfold _generate_tuple.
      rewrite generate_tuple_impl_in_range by (simpl; lia). cbn [obind]. rewrite Hf. done.
Qed.

(** X8.  In a formatter that [_set_pattern] returns, each helper holds
    exactly as many callbacks as the scan has counted for its part, and a
    part has no helper exactly when no callback is generated for it; the
    date format, the time zone and the precision of the formatter are left
    as they were. *)
Theorem set_pattern_helpers_have_counted_size (pattern : text) (self fm : PatternFormatter) :
  _set_pattern pattern self = Returns fm ->
  exists part_1 part_3 n1 n3,
    split_pattern pattern = Returns (part_1, part_3) /\
    _parse_format_pattern pattern = Some (n1, n3) /\
    (forall h, _pattern_formatter_helper_part_1 fm = Some h ->
               length (_tuple_of_callbacks h) = n1) /\
    (forall h, _pattern_formatter_helper_part_3 fm = Some h ->
               length (_tuple_of_callbacks h) = n3) /\
    (_pattern_formatter_helper_part_1 fm = None <->
     _generate_vector_of_callbacks part_1 = Returns []) /\
    (_pattern_formatter_helper_part_3 fm = None <->
     _generate_vector_of_callbacks part_3 = Returns []) /\
    _date_format fm = _date_format self /\
    _timezone_type fm = _timezone_type self /\
    _timestamp_precision fm = _timestamp_precision self.
Proof.
  unfold _set_pattern.
  destruct (split_pattern pattern) as [[p1 p3]|]; [|done]. simpl.
  destruct (_parse_format_pattern pattern) as [[n1 n3]|]; [|done]. simpl.
  destruct (_make_formatter_helper n1 p1) as [h1|] eqn:Hm1; [|done]. simpl.
  destruct (_make_formatter_helper n3 p3) as [h3|] eqn:Hm3; [|done]. simpl.
  intros [= <-]. exists p1, p3, n1, n3. simpl.
  assert (forall N part helper,
            _make_formatter_helper N part = Returns helper ->
            (forall h, helper = Some h -> length (_tuple_of_callbacks h) = N) /\
            (helper = None <-> _generate_vector_of_callbacks part = Returns [])) as Hsize.
  { intros N part helper Hm.
    apply make_formatter_helper_inv in Hm as (items & callbacks & Ht & Hb & Hcase).
    unfold _generate_vector_of_callbacks. rewrite Ht. simpl. rewrite Hb.
    destruct Hcase as [[-> ->]|(Hne & Hlen & ->)].
    - split; [done|]. done.
    - split.
      + intros h [= <-]. simpl. rewrite length_take. lia.
      + split; [done|]. intros [= ->]. done. }
  destruct (Hsize _ _ _ Hm1) as [Hs1 Hn1]. destruct (Hsize _ _ _ Hm3) as [Hs3 Hn3].
  split_and!; done.
Qed.

End HelperFacts.

Lemma make_formatter_helper_cases_witness :
  @_make_formatter_helper field_resolvers 2 (lit "50% %(thread) ") = Throws undefined_behaviour.
Proof.
  destruct (@make_formatter_helper_cases field_resolvers 2 (lit "50% %(thread) "))
    as (_ & _ & Hsome).
  apply (Hsome [fun _ thread_id _ _ => thread_id]).
  - vm_compute. reflexivity.
  - discriminate.
  - simpl. lia.
Defined.

Lemma set_pattern_helpers_have_counted_size_witness :
  exists part_1 part_3 n1 n3,
    split_pattern (lit "%%(message) %(thread)") = Returns (part_1, part_3) /\
    _parse_format_pattern (lit "%%(message) %(thread)") = Some (n1, n3) /\
    (forall h, _pattern_formatter_helper_part_1 (formatter_of "%%(message) %(thread)") = Some h ->
               length (_tuple_of_callbacks h) = n1) /\
    (forall h, _pattern_formatter_helper_part_3 (formatter_of "%%(message) %(thread)") = Some h ->
               length (_tuple_of_callbacks h) = n3) /\
    (_pattern_formatter_helper_part_1 (formatter_of "%%(message) %(thread)") = None <->
     @_generate_vector_of_callbacks field_resolvers part_1 = Returns []) /\
    (_pattern_formatter_helper_part_3 (formatter_of "%%(message) %(thread)") = None <->
     @_generate_vector_of_callbacks field_resolvers part_3 = Returns []) /\
    _date_format (formatter_of "%%(message) %(thread)") = _date_format default_members /\
    _timezone_type (formatter_of "%%(message) %(thread)") = _timezone_type default_members /\
    _timestamp_precision (formatter_of "%%(message) %(thread)")
    = _timestamp_precision default_members.
Proof.
  apply (@set_pattern_helpers_have_counted_size field_resolvers
           (lit "%%(message) %(thread)") default_members
           (formatter_of "%%(message) %(thread)")).
  vm_compute. reflexivity.
Defined.

(** ** Failures of [PatternFormatter::format] *)

Section FormatFailures.
Context `{FmtEngine}.

(** X9.  [format] returns exactly when its three interpolations return.
    When one of them throws, the exception leaves [format] at once: the
    later steps are not run, the line terminator is not appended, and the
    buffer holds what had been appended up to the throw: nothing of the
    old content, part 1 only when the message throws, part 1 and the message
    when part 3 throws. *)
Theorem format_failure_modes (self : PatternFormatter) (timestamp : nanoseconds)
    (thread_id logger_name : text) (logline_info : StaticLogRecordInfo) (args : list Arg)
    (buffer : text) :
  let part_1 := format_part (_pattern_formatter_helper_part_1 self) timestamp thread_id
                  logger_name logline_info [] in
  let message := fmt_format_to (message_format logline_info) args in
  let part_3 := format_part (_pattern_formatter_helper_part_3 self) timestamp thread_id
                  logger_name logline_info [] in
  let result := format self timestamp thread_id logger_name logline_info args buffer in
  (result.2 = Returns tt <->
   part_1.2 = Returns tt /\ message.2 = Returns tt /\ part_3.2 = Returns tt) /\
  (forall e, part_1.2 = Throws e -> result = (part_1.1, Throws e)) /\
  (forall e, part_1.2 = Returns tt -> message.2 = Throws e ->
             result = (part_1.1 ++ message.1, Throws e)) /\
  (forall e, part_1.2 = Returns tt -> message.2 = Returns tt -> part_3.2 = Throws e ->
             result = (part_1.1 ++ message.1 ++ part_3.1, Throws e)).
Proof.
  intros part_1 message part_3 result.
  assert (result =
          match part_1 with
          | (out1, Throws e) => (out1, Throws e)
          | (out1, Returns _) =>
              match message with
              | (m, Throws e) => (out1 ++ m, Throws e)
              | (m, Returns _) =>
                  match part_3 with
                  | (out3, Throws e) => (out1 ++ m ++ out3, Throws e)
                  | (out3, Returns _) => (out1 ++ m ++ out3 ++ ["010"%char], Returns tt)
                  end
              end
          end) as ->.
  { unfold result, format, ebind, emodify. fold part_1.
    destruct part_1 as [out1 [[]|e1]]; [|done].
    rewrite format_to_appends. fold message.
    destruct message as [m [[]|e2]]; [|done]. cbn [fst snd].
    rewrite format_part_appends. fold part_3.
    destruct part_3 as [out3 [[]|e3]]; cbn [fst snd]; by rewrite <- !(assoc_L (++)). }
  destruct part_1 as [out1 [[]|e1]], message as [m [[]|e2]], part_3 as [out3 [[]|e3]];
    cbn [fst snd]; split_and!; try done; try (intros; simplify_eq; done); intuition congruence.
Qed.

End FormatFailures.

Lemma format_failure_modes_witness :
  @format brace_engine (formatter_of "[%(thread)] %(message) (%(filename):%(lineno))")
          0%Z (lit "t1") (lit "app") info_value [] (lit "left over")
  = (lit "[t1] value=", Throws format_error).
Proof.
  destruct (@format_failure_modes brace_engine
              (formatter_of "[%(thread)] %(message) (%(filename):%(lineno))")
              0%Z (lit "t1") (lit "app") info_value [] (lit "left over"))
    as (_ & _ & Hmessage & _).
  apply (Hmessage format_error); vm_compute; reflexivity.
Defined.

(** ** Further properties of [LogRecord::backend_process] *)

Section DispatchFurther.
Context `{FmtEngine} `{Backend}.
Context (registry : Registry) (self : LogRecord) (logger_details : LoggerDetails).
Context (thread_id : text) (log_record_timestamp : nanoseconds).

Local Abbreviation forward_x :=
  (forward_to_handler registry self logger_details thread_id log_record_timestamp).
Local Abbreviation text_x :=
  (rendered_text registry self logger_details thread_id log_record_timestamp).
Local Abbreviation event_x :=
  (write_event registry self logger_details thread_id log_record_timestamp).
Local Abbreviation delivered_x :=
  (delivered registry self logger_details thread_id log_record_timestamp).
Local Abbreviation delivers_x :=
  (delivers registry self logger_details thread_id log_record_timestamp).

(** The body of the loop changes the buffer of its own handler only. *)
Lemma forward_other_buffers handler other w :
  other <> handler ->
  formatter_buffers (forward_x handler w).1 !! other = formatter_buffers w !! other.
Proof.
  intros Hne. destruct (handler_objects registry !! handler) as [h|] eqn:Hh.
  - destruct ((render_for self logger_details thread_id log_record_timestamp h).2)
      as [[]|e] eqn:Hr.
    + rewrite (forward_rendered _ _ _ _ _ _ h) by done. simpl. by rewrite lookup_insert_ne.
    + rewrite (forward_render_throws _ _ _ _ _ _ h e) by done. simpl.
      by rewrite lookup_insert_ne.
  - by rewrite forward_dangling.
Qed.

Lemma efor_other_buffers l other w :
  other ∉ l ->
  formatter_buffers (efor l forward_x w).1 !! other = formatter_buffers w !! other.
Proof.
  revert w; induction l as [|handler l IH]; intros w Hn; cbn [efor]; [done|].
  assert (other <> handler) as Hne by (intros ->; apply Hn; left).
  assert (other ∉ l) as Hn' by (intros ?; apply Hn; by right).
  unfold ebind. pose proof (forward_other_buffers handler other w Hne) as Hf.
  destruct (forward_x handler w) as [w1 [[]|e]]; simpl in Hf.
  - by rewrite IH.
  - done.
Qed.

(** What the body calls and how it ends does not depend on the world. *)
Lemma forward_calls_fixed handler :
  exists evs r, forall w,
    calls (forward_x handler w).1 = calls w ++ evs /\ (forward_x handler w).2 = r.
Proof.
  destruct (handler_objects registry !! handler) as [h|] eqn:Hh.
  - destruct ((render_for self logger_details thread_id log_record_timestamp h).2)
      as [[]|e] eqn:Hr.
    + exists [event_x handler], (write h (text_x handler) log_record_timestamp). intros w.
      by rewrite (forward_rendered _ _ _ _ _ _ h).
    + exists [], (Throws e). intros w.
      rewrite (forward_render_throws _ _ _ _ _ _ h e) by done. simpl. by rewrite app_nil_r.
  - exists [], (Throws undefined_behaviour). intros w.
    rewrite forward_dangling by done. simpl. by rewrite app_nil_r.
Qed.

Lemma efor_calls_fixed l :
  exists evs r, forall w,
    calls (efor l forward_x w).1 = calls w ++ evs /\ (efor l forward_x w).2 = r.
Proof.
  induction l as [|handler l (evs & r & IH)]; cbn [efor].
  - exists [], (Returns tt). intros w. simpl. by rewrite app_nil_r.
  - destruct (forward_calls_fixed handler) as (evs1 & r1 & Hf).
    destruct r1 as [[]|e].
    + exists (evs1 ++ evs), r. intros w. unfold ebind.
      destruct (Hf w) as [Hc Hr]. destruct (forward_x handler w) as [w1 r1]. simpl in *.
      subst r1. destruct (IH w1) as [Hc' Hr']. by rewrite Hc', Hc, <- (assoc_L (++)).
    + exists evs1, (Throws e). intros w. unfold ebind.
      destruct (Hf w) as [Hc Hr]. destruct (forward_x handler w) as [w1 r1]. simpl in *.
      by subst r1.
Qed.

Lemma delivered_buffers_in w l handler :
  handler ∈ l -> formatter_buffers (delivered_x w l) !! handler = Some (text_x handler).
Proof.
  revert w; induction l as [|handler' l IH]; intros w Hin; [by apply elem_of_nil in Hin|].
  change (delivered_x w (handler' :: l)) with (delivered_x (delivered_x w [handler']) l).
  destruct (decide (handler ∈ l)) as [Hl|Hl]; [by apply IH|].
  apply elem_of_cons in Hin as [->|Hin]; [|done].
  rewrite delivered_buffers by done. simpl. apply lookup_insert_eq.
Qed.

Lemma efor_write_throws before failing after h e w :
  Forall delivers_x before ->
  handler_objects registry !! failing = Some h ->
  (render_for self logger_details thread_id log_record_timestamp h).2 = Returns tt ->
  write h (text_x failing) log_record_timestamp = Throws e ->
  efor (before ++ failing :: after) forward_x w =
  ({| formatter_buffers :=
        <[failing := text_x failing]> (formatter_buffers (delivered_x w before));
      calls := calls (delivered_x w before) ++ [event_x failing] |}, Throws e).
Proof.
  intros Hb Hh Hr Hw. apply efor_throws_at; [done|].
  rewrite (forward_rendered _ _ _ _ _ _ h) by done. by rewrite Hw.
Qed.

End DispatchFurther.

Section DispatchFurtherTheorems.
Context `{FmtEngine} `{Backend}.

(** X10.  A [write] that throws ends the dispatch like a failing render
    does, but after the call: the failing handler's [write] has been called
    once, with the complete line, and is not called again; the exception
    leaves [backend_process]; no handler attached after the failing one is
    rendered or written, and the backtrace storage is not called. *)
Theorem write_failure_ends_dispatch (registry : Registry) (self : LogRecord)
    (storage : BacktraceRecordStorage) (thread_id : text)
    (obtain_active_handlers : GetHandlersCallbackT)
    (timestamp_callback : LogRecord -> nanoseconds)
    (logger_details : LoggerDetails) (w : World)
    (before after : list ptr) (failing : ptr) (h : Handler) (e : exn) :
  logger_objects registry !! _logger_details self = Some logger_details ->
  handlers logger_details = before ++ failing :: after ->
  Forall (delivers registry self logger_details thread_id (timestamp_callback self)) before ->
  handler_objects registry !! failing = Some h ->
  (render_for self logger_details thread_id (timestamp_callback self) h).2 = Returns tt ->
  write h (render_for self logger_details thread_id (timestamp_callback self) h).1
        (timestamp_callback self) = Throws e ->
  exists w',
    backend_process registry self storage thread_id obtain_active_handlers timestamp_callback w
      = (w', Throws e) /\
    calls w' = calls w
               ++ map (write_event registry self logger_details thread_id
                         (timestamp_callback self)) before
               ++ [EvWrite failing
                     (render_for self logger_details thread_id (timestamp_callback self) h).1
                     (timestamp_callback self)] /\
    formatter_buffers w' !! failing
    = Some (render_for self logger_details thread_id (timestamp_callback self) h).1 /\
    (forall handler, handler ∉ before -> handler <> failing ->
       formatter_buffers w' !! handler = formatter_buffers w !! handler).
Proof.
  intros Hl Hh Hb Hf Hr Hw.
  assert (rendered_text registry self logger_details thread_id (timestamp_callback self) failing
          = (render_for self logger_details thread_id (timestamp_callback self) h).1) as Ht.
  { unfold rendered_text. by rewrite Hf. }
  rewrite (backend_process_unfold _ _ _ _ _ _ _ _ Hl), Hh.
  rewrite (efor_write_throws _ _ _ _ _ _ _ _ h e) by (by rewrite ?Ht).
  eexists; split; [done|]. simpl. rewrite delivered_calls, <- (assoc_L (++)).
  unfold write_event at 2. rewrite Ht. split_and!; [done | |].
  - by rewrite lookup_insert_eq.
  - intros handler Hnb Hnf. rewrite lookup_insert_ne by done. by apply delivered_buffers.
Qed.

(** X11.  A dispatch that does not reach the backtrace storage (the record
    is below the flush level, or a render or a [write] has thrown) never
    touches the buffer of a handler that is not attached to the logger of
    the record.  When the record, below the flush level, has been delivered
    to every handler, the buffer of each attached handler holds the line
    that was written to it. *)
Theorem dispatch_changes_attached_buffers_only (registry : Registry) (self : LogRecord)
    (storage : BacktraceRecordStorage) (thread_id : text)
    (obtain_active_handlers : GetHandlersCallbackT)
    (timestamp_callback : LogRecord -> nanoseconds)
    (logger_details : LoggerDetails) (w : World) :
  logger_objects registry !! _logger_details self = Some logger_details ->
  EvBacktraceProcess (name logger_details)
    ∉ drop (length (calls w))
           (calls (backend_process registry self storage thread_id
                     obtain_active_handlers timestamp_callback w).1) ->
  (forall handler,
     handler ∉ handlers logger_details ->
     formatter_buffers (backend_process registry self storage thread_id
                          obtain_active_handlers timestamp_callback w).1 !! handler
     = formatter_buffers w !! handler) /\
  (Forall (delivers registry self logger_details thread_id (timestamp_callback self))
          (handlers logger_details) ->
   (level (LogRecordMetadataT self) < backtrace_flush_level logger_details)%N /\
   forall handler,
     handler ∈ handlers logger_details ->
     formatter_buffers (backend_process registry self storage thread_id
                          obtain_active_handlers timestamp_callback w).1 !! handler
     = Some (rendered_text registry self logger_details thread_id
               (timestamp_callback self) handler) /\
     EvWrite handler (rendered_text registry self logger_details thread_id
                        (timestamp_callback self) handler) (timestamp_callback self)
       ∈ calls (backend_process registry self storage thread_id
                  obtain_active_handlers timestamp_callback w).1).
Proof.
  intros Hl. rewrite (backend_process_unfold _ _ _ _ _ _ _ _ Hl). intros Hno. split.
  - intros handler Hn.
    pose proof (efor_other_buffers registry self logger_details thread_id
                  (timestamp_callback self) (handlers logger_details) handler w Hn) as Hb.
    destruct (efor _ _ w) as [w1 [[]|e]]; simpl in Hb; [|done].
    by case_bool_decide.
  - intros Hd. rewrite (efor_delivers _ _ _ _ _ _ _ Hd) in Hno |- *.
    case_bool_decide as Hlevel.
    { exfalso. apply Hno. simpl. rewrite delivered_calls, <- (assoc_L (++)), drop_app_length.
      apply elem_of_app. right. left. }
    split; [lia|]. intros handler Hin.
    assert (EvWrite handler
              (rendered_text registry self logger_details thread_id
                 (timestamp_callback self) handler) (timestamp_callback self)
            ∈ map (write_event registry self logger_details thread_id
                     (timestamp_callback self)) (handlers logger_details)) as Hev.
    { apply list_elem_of_fmap. exists handler. done. }
    simpl. rewrite delivered_calls.
    split; [by apply delivered_buffers_in|]. rewrite elem_of_app. auto.
Qed.

(** X12.  What a dispatch calls, and how it ends, does not depend on the
    world it starts from: neither on what the formatters' buffers hold from
    earlier records, also after a render that has thrown, nor on the calls
    made before.  Two dispatches of the same record add the same calls. *)
Theorem dispatch_independent_of_world (registry : Registry) (self : LogRecord)
    (storage : BacktraceRecordStorage) (thread_id : text)
    (obtain_active_handlers : GetHandlersCallbackT)
    (timestamp_callback : LogRecord -> nanoseconds) :
  exists new_calls r, forall w,
    (backend_process registry self storage thread_id obtain_active_handlers
       timestamp_callback w).2 = r /\
    calls (backend_process registry self storage thread_id obtain_active_handlers
             timestamp_callback w).1 = calls w ++ new_calls.
Proof.
  destruct (logger_objects registry !! _logger_details self) as [logger_details|] eqn:Hl.
  - destruct (efor_calls_fixed registry self logger_details thread_id (timestamp_callback self)
                (handlers logger_details)) as (evs & r & Hfixed).
    destruct r as [[]|e].
    + exists (evs ++ if bool_decide (backtrace_flush_level logger_details
                                     <= level (LogRecordMetadataT self))%N
                     then backtrace_events storage (name logger_details) else []),
             (Returns tt).
      intros w. rewrite (backend_process_unfold _ _ _ _ _ _ _ _ Hl).
      destruct (Hfixed w) as [Hc Hr]. destruct (efor _ _ w) as [w1 r1]. simpl in *. subst r1.
      case_bool_decide; simpl; rewrite Hc, ?app_nil_r, <- ?(assoc_L (++)); done.
    + exists evs, (Throws e). intros w. rewrite (backend_process_unfold _ _ _ _ _ _ _ _ Hl).
      destruct (Hfixed w) as [Hc Hr]. destruct (efor _ _ w) as [w1 r1]. simpl in *. by subst r1.
  - exists [], (Throws undefined_behaviour). intros w.
    unfold backend_process, deref, ebind. rewrite Hl. simpl. by rewrite app_nil_r.
Qed.

End DispatchFurtherTheorems.

Lemma write_failure_ends_dispatch_witness :
  exists w',
    backend_process (disk_registry [1; 4; 2]%positive) record_value app_backtrace
      (lit "t1") tt record_base fresh_world = (w', Throws handler_error) /\
    calls w' = [ EvWrite 1%positive (lit "INFO app - value=42" ++ ["010"%char]) 1000%Z;
                 EvWrite 4%positive (lit "[t1] value=42" ++ ["010"%char]) 1000%Z ] /\
    formatter_buffers w' !! 2%positive = None.
Proof.
  destruct (write_failure_ends_dispatch (disk_registry [1; 4; 2]%positive) record_value
              app_backtrace (lit "t1") tt record_base (app_logger [1; 4; 2]%positive)
              fresh_world [1%positive] [2%positive] 4%positive full_disk_handler handler_error)
    as (w' & Hrun & Hcalls & _ & Hbuf).
  - reflexivity.
  - reflexivity.
  - repeat constructor. exists console_handler. by vm_compute.
  - reflexivity.
  - by vm_compute.
  - reflexivity.
  - exists w'. split_and!; [exact Hrun | rewrite Hcalls; by vm_compute |].
    rewrite Hbuf; [reflexivity | by intros ?%list_elem_of_singleton | discriminate].
Defined.

Lemma dispatch_changes_attached_buffers_only_witness :
  formatter_buffers (backend_process (app_registry [1; 2]%positive) record_value app_backtrace
                       (lit "t1") tt record_base fresh_world).1 !! 3%positive = None /\
  formatter_buffers (backend_process (app_registry [1; 2]%positive) record_value app_backtrace
                       (lit "t1") tt record_base fresh_world).1 !! 2%positive
  = Some (lit "[t1] value=42 (main.cpp:12)" ++ ["010"%char]).
Proof.
  destruct (dispatch_changes_attached_buffers_only (app_registry [1; 2]%positive) record_value
              app_backtrace (lit "t1") tt record_base (app_logger [1; 2]%positive) fresh_world
              (app_logger_found _)) as [Hother Hattached].
  - vm_compute. intros Hin.
    apply elem_of_cons in Hin as [Heq|Hin]; [discriminate|].
    apply elem_of_cons in Hin as [Heq|Hin]; [discriminate|].
    by apply elem_of_nil in Hin.
  - split.
    + rewrite Hother; [reflexivity|]. apply (bool_decide_unpack _). by vm_compute.
    + destruct (Hattached (console_and_file_deliver record_value (or_introl eq_refl)))
        as [_ Hbuffers].
      destruct (Hbuffers 2%positive) as [Hbuf _].
      * apply (bool_decide_unpack _). by vm_compute.
      * rewrite Hbuf. by vm_compute.
Defined.

(** ** Further properties of [LogRecord::clone] *)

Section CloneFurther.
Context `{FmtEngine} `{Backend}.

(** X13.  A [clone] that returns has added exactly one object to the heap
    and changed none: every record that was on the heap is still there,
    unchanged, the new address was not in use, and the new object holds what
    the original holds.  A clone of the clone, when it returns, is at a
    third address and holds what the original holds. *)
Theorem clone_extends_heap (heap heap' : gmap ptr LogRecord) (self p : ptr) :
  clone heap self = Returns (p, heap') ->
  heap !! p = None /\
  is_Some (heap !! self) /\
  heap' !! p = heap !! self /\
  (forall q, q <> p -> heap' !! q = heap !! q) /\
  dom heap' = {[ p ]} ∪ dom heap /\
  size heap' = S (size heap) /\
  (forall p2 heap2,
     clone heap' p = Returns (p2, heap2) ->
     p2 <> p /\ p2 <> self /\ heap2 !! p2 = heap !! self /\
     (forall q, q <> p2 -> heap2 !! q = heap' !! q)).
Proof.
  unfold clone. destruct (heap !! self) as [this|] eqn:Hself; [|done].
  intros [= <- <-]. set (p := fresh (dom heap)).
  assert (heap !! p = None) as Hfresh by (apply not_elem_of_dom, is_fresh).
  split_and!.
  - done.
  - done.
  - by rewrite lookup_insert_eq, copy_LogRecord_eq.
  - intros q Hq. by rewrite lookup_insert_ne.
  - apply dom_insert_L.
  - by apply map_size_insert_None.
  - rewrite lookup_insert_eq. intros p2 heap2 [= <- <-].
    set (heap' := <[p := copy_LogRecord this]> heap).
    set (p2 := fresh (dom heap')).
    assert (heap' !! p2 = None) as Hfresh2 by (apply not_elem_of_dom, is_fresh).
    split_and!.
    + intros Heq. rewrite Heq in Hfresh2. unfold heap' in Hfresh2.
      by rewrite lookup_insert_eq in Hfresh2.
    + intros Heq. rewrite Heq in Hfresh2. unfold heap' in Hfresh2.
      rewrite lookup_insert_ne in Hfresh2 by congruence. congruence.
    + by rewrite lookup_insert_eq, !copy_LogRecord_eq.
    + intros q Hq. by rewrite lookup_insert_ne.
Qed.

End CloneFurther.

Lemma clone_extends_heap_witness :
  exists p heap',
    clone ({[ 5%positive := record_value; 6%positive := record_error ]} : gmap ptr LogRecord)
          6%positive = Returns (p, heap') /\
    heap' !! p = Some record_error /\
    heap' !! 5%positive = Some record_value /\
    size heap' = 3.
Proof.
  set (heap := ({[ 5%positive := record_value; 6%positive := record_error ]}
                : gmap ptr LogRecord)).
  assert (clone heap 6%positive = Returns (7%positive, <[7%positive := record_error]> heap))
    as Hclone by (by vm_compute).
  destruct (clone_extends_heap heap (<[7%positive := record_error]> heap) 6%positive 7%positive
              Hclone) as (_ & _ & Hcopy & Hother & _ & Hsize & _).
  exists 7%positive, (<[7%positive := record_error]> heap).
  split_and!; [done | by rewrite Hcopy | by rewrite Hother | by rewrite Hsize].
Defined.

(** ** Patterns without attribute tokens *)

Section LiteralPatterns.
Context `{FmtEngine} `{ResolverTable}.

Lemma items_text_literals (s : text) : items_text (map Literal s) = s.
Proof. induction s as [|c s IH]; [done|]. rewrite <- IH at 2. done. Qed.

Lemma plain_literals (s : text) :
  Forall (fun c => c <> "%"%char) s -> Forall plain_item (map Literal s).
Proof. induction 1; constructor; done. Qed.

Lemma no_token_in_literals (s : text) (name : text) : Token name ∉ map Literal s.
Proof. intros Hin. apply list_elem_of_fmap in Hin as (c & Heq & _). done. Qed.

Lemma bind_callbacks_literals (s : text) : bind_callbacks (map Literal s) = Returns [].
Proof. induction s as [|c s IH]; [done|]. exact IH. Qed.

Lemma no_callbacks_without_percent (s : text) :
  Forall (fun c => c <> "%"%char) s -> _generate_vector_of_callbacks s = Returns [].
Proof.
  intros Hs. unfold _generate_vector_of_callbacks.
  rewrite <- (items_text_literals s) at 1. rewrite tokenize_items by by apply plain_literals.
  apply bind_callbacks_literals.
Qed.

(** X14.  A pattern whose only ['%'] is the one of [%(message)] is accepted
    under every resolver table, and gets a helper for neither part, for no
    callback is generated for a text without ['%'].  Every line rendered
    with it is the interpolated message followed by the line terminator: the
    literal text before and after [%(message)] is not rendered. *)
Theorem literal_pattern_renders_message_only (pre post : text) (self : PatternFormatter) :
  Forall (fun c => c <> "%"%char) pre ->
  Forall (fun c => c <> "%"%char) post ->
  exists fm,
    _set_pattern (pre ++ message_token ++ post) self = Returns fm /\
    _pattern_formatter_helper_part_1 fm = None /\
    _pattern_formatter_helper_part_3 fm = None /\
    forall timestamp thread_id logger_name logline_info args buffer message,
      fmt_format_to (message_format logline_info) args = (message, Returns tt) ->
      format fm timestamp thread_id logger_name logline_info args buffer
      = (message ++ ["010"%char], Returns tt).
Proof.
  intros Hpre Hpost.
  pose proof (split_items (map Literal pre) (map Literal post) (plain_literals _ Hpre)
                (no_token_in_literals _ _)) as Hsplit.
  rewrite !items_text_literals in Hsplit.
  destruct (parse_defined (pre ++ message_token ++ post)) as [[n1 n3] Hparse].
  { intros Heq. apply (f_equal length) in Heq. rewrite !length_app in Heq.
    change (length message_token) with 10 in Heq. simpl in Heq. lia. }
  pose proof (make_formatter_helper_no_callbacks n1 pre) as Hnone1.
  pose proof (make_formatter_helper_no_callbacks n3 post) as Hnone3.
  eexists. split_and!.
  - unfold _set_pattern. rewrite Hsplit. cbn [obind]. rewrite Hparse. cbn [obind].
    rewrite (Hnone1 (no_callbacks_without_percent _ Hpre)). cbn [obind].
    rewrite (Hnone3 (no_callbacks_without_percent _ Hpost)). cbn [obind]. reflexivity.
  - done.
  - done.
  - intros timestamp thread_id logger_name logline_info args buffer message Hm.
    unfold format, ebind, emodify, format_part, eret.
    cbn [_pattern_formatter_helper_part_1 _pattern_formatter_helper_part_3].
    rewrite format_to_appends, Hm. done.
Qed.

End LiteralPatterns.

Lemma literal_pattern_renders_message_only_witness :
  exists fm,
    @_set_pattern field_resolvers (lit "LOG: " ++ message_token ++ lit " [end]") default_members
      = Returns fm /\
    @format brace_engine fm 0%Z (lit "t1") (lit "app") info_value [lit "42"] (lit "stale")
    = (lit "value=42" ++ ["010"%char], Returns tt).
Proof.
  destruct (@literal_pattern_renders_message_only brace_engine field_resolvers
              (lit "LOG: ") (lit " [end]") default_members)
    as (fm & Hset & _ & _ & Hformat).
  - apply (bool_decide_unpack _). by vm_compute.
  - apply (bool_decide_unpack _). by vm_compute.
  - exists fm. split; [exact Hset|]. apply Hformat. by vm_compute.
Defined.

(** ** What a handler is handed *)

Section CompleteLines.
Context `{FmtEngine} `{Backend}.

Lemma format_returns_line (self : PatternFormatter) timestamp thread_id logger_name
    logline_info args buffer :
  (format self timestamp thread_id logger_name logline_info args buffer).2 = Returns tt ->
  exists body,
    (format self timestamp thread_id logger_name logline_info args buffer).1
    = body ++ ["010"%char].
Proof.
  unfold format, ebind, emodify.
  destruct (format_part (_pattern_formatter_helper_part_1 self) _ _ _ _ _) as [b1 [[]|e1]];
    [|done].
  destruct (format_to _ _ b1) as [b2 [[]|e2]]; [|done].
  destruct (format_part (_pattern_formatter_helper_part_3 self) _ _ _ _ _) as [b3 [[]|e3]];
    [|done].
  intros _. by exists b3.
Qed.

Context (registry : Registry) (self : LogRecord) (logger_details : LoggerDetails).
Context (thread_id : text) (log_record_timestamp : nanoseconds).

(** The handler exists and rendering for it returns. *)
Local Abbreviation rendered_ok :=
  (fun handler : ptr =>
     exists h, handler_objects registry !! handler = Some h /\
       (render_for self logger_details thread_id log_record_timestamp h).2 = Returns tt).

Lemma forward_calls_rendered handler w :
  calls (forward_to_handler registry self logger_details thread_id log_record_timestamp
           handler w).1 = calls w \/
  (calls (forward_to_handler registry self logger_details thread_id log_record_timestamp
            handler w).1
   = calls w ++ [write_event registry self logger_details thread_id log_record_timestamp handler]
   /\ rendered_ok handler).
Proof.
  destruct (handler_objects registry !! handler) as [h|] eqn:Hh.
  - destruct ((render_for self logger_details thread_id log_record_timestamp h).2)
      as [[]|e] eqn:Hr.
    + right. rewrite (forward_rendered _ _ _ _ _ _ h) by done. split; [done|]. by exists h.
    + left. by rewrite (forward_render_throws _ _ _ _ _ _ h e).
  - left. by rewrite forward_dangling.
Qed.

Lemma efor_calls_rendered l w :
  exists written,
    calls (efor l (forward_to_handler registry self logger_details thread_id
                     log_record_timestamp) w).1
    = calls w ++ map (write_event registry self logger_details thread_id
                        log_record_timestamp) written /\
    Forall rendered_ok written /\ written ⊆ l.
Proof.
  revert w; induction l as [|handler l IH]; intros w; cbn [efor].
  - exists []. simpl. by rewrite app_nil_r.
  - unfold ebind. destruct (forward_calls_rendered handler w) as [Hc|[Hc Hok]];
      destruct (forward_to_handler _ _ _ _ _ handler w) as [w1 [[]|e]]; simpl in Hc.
    + destruct (IH w1) as (written & Hw & Hall & Hsub). exists written.
      rewrite Hw, Hc. split_and!; [done | done |].
      intros x Hx. apply elem_of_cons. right. by apply Hsub.
    + exists []. simpl. rewrite Hc, app_nil_r. split_and!; [done | done |].
      intros x Hx. by apply elem_of_nil in Hx.
    + destruct (IH w1) as (written & Hw & Hall & Hsub). exists (handler :: written).
      rewrite Hw, Hc. simpl. rewrite <- (assoc_L (++)).
      split_and!; [done | by constructor |].
      intros x Hx. apply elem_of_cons in Hx as [->|Hx]; [left | right; by apply Hsub].
    + exists [handler]. simpl. rewrite Hc.
      split_and!; [done | by repeat constructor |].
      intros x Hx. apply list_elem_of_singleton in Hx as ->. left.
Qed.

End CompleteLines.

(** X15.  A handler is never handed a partial line.  Every [write] call of
    a dispatch, however the dispatch ends, goes to a handler attached to the
    logger of the record, carries the timestamp resolved once for the record,
    and carries the buffer of a render that has returned: a complete line,
    ending with the line terminator. *)
Theorem writes_carry_complete_lines `{FmtEngine} `{Backend} (registry : Registry)
    (self : LogRecord) (storage : BacktraceRecordStorage) (thread_id : text)
    (obtain_active_handlers : GetHandlersCallbackT)
    (timestamp_callback : LogRecord -> nanoseconds)
    (logger_details : LoggerDetails) (w : World)
    (handler : ptr) (buffer : text) (timestamp : nanoseconds) :
  logger_objects registry !! _logger_details self = Some logger_details ->
  EvWrite handler buffer timestamp
    ∈ drop (length (calls w))
           (calls (backend_process registry self storage thread_id obtain_active_handlers
                     timestamp_callback w).1) ->
  handler ∈ handlers logger_details /\
  timestamp = timestamp_callback self /\
  (exists h, handler_objects registry !! handler = Some h /\
             render_for self logger_details thread_id (timestamp_callback self) h
             = (buffer, Returns tt)) /\
  exists body, buffer = body ++ ["010"%char].
Proof.
  intros Hl. rewrite (backend_process_unfold _ _ _ _ _ _ _ _ Hl).
  destruct (efor_calls_rendered registry self logger_details thread_id (timestamp_callback self)
              (handlers logger_details) w) as (written & Hw & Hall & Hsub).
  assert (EvWrite handler buffer timestamp
            ∈ map (write_event registry self logger_details thread_id
                     (timestamp_callback self)) written ->
          handler ∈ handlers logger_details /\
          timestamp = timestamp_callback self /\
          (exists h, handler_objects registry !! handler = Some h /\
                     render_for self logger_details thread_id (timestamp_callback self) h
                     = (buffer, Returns tt)) /\
          exists body, buffer = body ++ ["010"%char]) as Hmain.
  { intros Hin. apply list_elem_of_fmap in Hin as (hd & Heq & Hhd).
    unfold write_event in Heq. injection Heq as -> -> ->.
    rewrite Forall_forall in Hall. destruct (Hall _ Hhd) as (h & Hh & Hr).
    unfold rendered_text. rewrite Hh.
    split_and!; [by apply Hsub | done | |].
    - exists h. split; [done|]. by destruct (render_for _ _ _ _ h) as [b r]; simpl in *; subst.
    - unfold render_for in Hr |- *. by apply format_returns_line. }
  destruct (efor _ _ w) as [w1 [[]|e]]; simpl in Hw.
  - case_bool_decide; simpl; rewrite Hw.
    + rewrite <- (assoc_L (++)), drop_app_length. intros Hin.
      apply elem_of_app in Hin as [Hin|Hin]; [by apply Hmain|].
      unfold backtrace_events in Hin. apply elem_of_cons in Hin as [Hin|Hin]; [done|].
      apply list_elem_of_fmap in Hin as (stored & Heq & _). done.
    + rewrite drop_app_length. apply Hmain.
  - simpl. rewrite Hw, drop_app_length. apply Hmain.
Qed.

Lemma writes_carry_complete_lines_witness :
  1%positive ∈ [1; 3; 2]%positive /\
  1000%Z = record_base record_value /\
  exists body, lit "INFO app - value=42" ++ ["010"%char] = body ++ ["010"%char].
Proof.
  destruct (writes_carry_complete_lines (app_registry [1; 3; 2]%positive) record_value
              app_backtrace (lit "t1") tt record_base (app_logger [1; 3; 2]%positive)
              fresh_world 1%positive (lit "INFO app - value=42" ++ ["010"%char]) 1000%Z)
    as (Hin & Hts & _ & Hline).
  - reflexivity.
  - vm_compute. left.
  - split_and!; [exact Hin | exact Hts | exact Hline].
Defined.

(** ** The reads of [_parse_format_pattern] *)

Lemma c_at_terminator (pattern : text) (i : nat) :
  length pattern <= i -> c_at pattern i = "000"%char.
Proof. intros Hle. unfold c_at. by apply nth_overflow. Qed.

Lemma c_read_in_range (pattern : text) (i : nat) :
  i <= length pattern -> c_read pattern i = Returns (c_at pattern i).
Proof. intros Hle. unfold c_read. by rewrite decide_True. Qed.

(** The chain stops at the terminator at the latest. *)
Lemma match_chain_checked_in_range (pattern expected : text) (pos : nat) :
  pos < length pattern -> "000"%char ∉ expected ->
  match_chain_checked pattern pos expected = Returns (match_chain pattern pos expected).
Proof.
  revert pos; induction expected as [|e expected IH]; intros pos Hlt Hnul; [done|].
  cbn [match_chain_checked match_chain]. rewrite c_read_in_range by lia. cbn [obind].
  destruct (Ascii.eqb (c_at pattern (S pos)) e) eqn:He; [|done].
  apply IH; [|intros Hin; apply Hnul; by right].
  destruct (decide (S pos < length pattern)) as [|Hge]; [done|]. exfalso.
  apply Ascii.eqb_eq in He. rewrite c_at_terminator in He by lia.
  apply Hnul. rewrite <- He. left.
Qed.

Lemma parse_loop_checked_in_range fuel pattern pos found c1 c3 r :
  pattern <> [] ->
  parse_loop fuel pattern pos found c1 c3 = Some r ->
  parse_loop_checked fuel pattern pos found c1 c3 = Some (Returns r).
Proof.
  intros Hne. assert (length pattern <> 0) as Hlen by (by destruct pattern).
  revert pos found c1 c3; induction fuel as [|fuel IH]; intros pos found c1 c3; [done|].
  rewrite parse_loop_S. cbn [parse_loop_checked]. unfold size_t_pred.
  rewrite (decide_False (P:=length pattern = 0)) by done.
  destruct (decide (pos < length pattern - 1)) as [Hlt|Hge].
  - rewrite decide_True by lia. rewrite c_read_in_range by lia.
    destruct (Ascii.eqb (c_at pattern pos) "%") eqn:Hc; [|apply IH].
    destruct found; cbn [negb]; [apply IH|].
    rewrite match_chain_checked_in_range;
      [|lia|apply (bool_decide_unpack _); by vm_compute].
    destruct (match_chain pattern pos (lit "(message)")) as [pos' [|]]; apply IH.
  - rewrite decide_False by lia. by intros [= <-].
Qed.

(** X16.  For every pattern but the empty one the scan stays inside the
    NUL-terminated array: no character beyond the terminator is read, and
    the counters are those of [_parse_format_pattern].  For the empty
    pattern [len - 1] is [SIZE_MAX], and the second iteration reads the
    character after the terminator. *)
Theorem parse_reads_stay_in_bounds (pattern : text) :
  _parse_format_pattern_checked pattern =
  Some (match _parse_format_pattern pattern with
        | Some counters => Returns counters
        | None => Throws undefined_behaviour
        end) /\
  (pattern <> [] ->
   exists counters, _parse_format_pattern_checked pattern = Some (Returns counters)).
Proof.
  destruct pattern as [|c pattern].
  - split; [by vm_compute | done].
  - destruct (parse_defined (c :: pattern)) as [r Hr]; [done|].
    assert (_parse_format_pattern_checked (c :: pattern) = Some (Returns r)) as Hchecked.
    { unfold _parse_format_pattern_checked. apply parse_loop_checked_in_range; [done|].
      apply (parse_loop_fuel_le (length (c :: pattern))); [lia | exact Hr]. }
    rewrite Hr. split; [done|]. intros _. by exists r.
Qed.

Lemma parse_reads_stay_in_bounds_witness :
  exists counters,
    _parse_format_pattern_checked (lit "%(thread) %(messag") = Some (Returns counters).
Proof.
  apply (proj2 (parse_reads_stay_in_bounds (lit "%(thread) %(messag"))). discriminate.
Defined.

Lemma parse_has_value_iff_nonempty_witness :
  is_Some (_parse_format_pattern (lit "%")) /\ _parse_format_pattern [] = None.
Proof.
  split.
  - apply (proj2 (parse_has_value_iff_nonempty (lit "%"))). discriminate.
  - destruct (_parse_format_pattern []) as [r|] eqn:Hr; [|reflexivity].
    exfalso. apply (proj1 (parse_has_value_iff_nonempty [])); [by exists r | reflexivity].
Defined.
